(** * ThreadPool: a shallow embedding of threadpool.h / threadpool.cpp

  The development follows the source bottom-up:

  - [Cxx]        the integer conversions the pool's comparisons go through;
  - [AnyModel]   the type-erased container [Any] and [cast_];
  - [Channel]    [Semaphore], [Result] and [Task::exec];
  - [Pool]       the [ThreadPool] object and the bodies of its member
                 functions, cut at the points where the queue mutex is
                 taken or released;
  - [Sched]      the interleaving of the main thread, the submitting
                 threads and the worker threads as an executable step
                 function over explicit program counters;
  - [Props]      the predicates the invariants are stated with, and
    [Runs]       the concrete runs used as examples;
  - the invariants of the reachable states and the theorems about the
    pool's documented behaviour. *)

From Stdlib Require Import ZArith Lia List String Bool.
From stdpp Require Import base option list gmap.

Local Open Scope Z_scope.

(** ** Integer conversions *)

Module Cxx.

Definition INT_MAX : Z := 2147483647.

(** [std::atomic_int]: arithmetic wraps in two's complement. *)
Definition wrap_int (z : Z) : Z := (z + 2147483648) mod 4294967296 - 2147483648.

(** Conversion to [unsigned int] ([std::atomic_uint], and an [int] compared
    with it). *)
Definition to_uint (z : Z) : Z := z mod 4294967296.

(** Conversion to [size_t] (64 bits). *)
Definition to_size_t (z : Z) : Z := z mod 18446744073709551616.

End Cxx.

(** ** The [Any] container *)

(** What a C++ call yields: a value, or a thrown [const char*]. *)
Inductive thrown (A : Type) : Type :=
| Ret (a : A)
| Throw (what : string).
Arguments Ret {A} a.
Arguments Throw {A} what.

Module AnyModel.
Section Generic.

(** [Ty] stands for the C++ types a task may return and [den T] for the
    values of type [T].  [dynamic_cast<Derive<T>*>] succeeds exactly when
    the dynamic type of the pointee is [Derive<T>]: the [Derive<T>] are
    unrelated classes, so this is equality of the type tags. *)
Context {Ty : Type} `{EqDecision Ty} (den : Ty -> Type).

(** [base_] is a [unique_ptr<Base>]: [None] is the null pointer, and
    [Some (existT T v)] points to a [Derive<T>] whose [data_] is [v]. *)
Record Any : Type := mkAny { base_ : option { T : Ty & den T } }.

(** [Any() = default] *)
Definition Any_default : Any := mkAny None.

(** [template<typename T> Any(T data)] *)
Definition Any_of (T : Ty) (data : den T) : Any := mkAny (Some (existT T data)).

(** [template<typename T> T cast_()] *)
Definition cast_ (T : Ty) (a : Any) : thrown (den T) :=
  match base_ a with
  | None => Throw "type is unmatch!"
  | Some (existT U data_) =>
      match decide (U = T) with
      | left e => Ret (eq_rect U den data_ T e)
      | right _ => Throw "type is unmatch!"
      end
  end.

End Generic.
End AnyModel.

(** The types that occur in the repository's tasks and in [Result::get]. *)
Inductive CxxType : Type := T_int | T_uLong | T_bool | T_cstr | T_string.

#[global] Instance CxxType_eq_dec : EqDecision CxxType.
Proof. solve_decision. Defined.

Definition cxx_den (T : CxxType) : Type :=
  match T with
  | T_int => Z
  | T_uLong => Z
  | T_bool => bool
  | T_cstr => string
  | T_string => string
  end.

Abbreviation Any := (AnyModel.Any cxx_den).
Abbreviation Any_default := (AnyModel.Any_default cxx_den).
Abbreviation Any_of := (AnyModel.Any_of cxx_den).
Abbreviation cast_ := (AnyModel.cast_ cxx_den).

(** ** Semaphore, Result and Task *)

(** A call that may block: [Blocked] means that the calling thread stays in
    its condition-variable wait. *)
Inductive blocking (A : Type) : Type :=
| Returned (a : A)
| Blocked.
Arguments Returned {A} a.
Arguments Blocked {A}.

Module Channel.

Record Semaphore : Type := mkSemaphore { resLimit_ : Z }.

(** [Semaphore(int resLimit = 0)] *)
Definition Semaphore_ctor (resLimit : Z) : Semaphore := mkSemaphore resLimit.

(** [acquire_]: waits for [resLimit_ > 0], then takes one resource. *)
Definition acquire_ (s : Semaphore) : blocking Semaphore :=
  if 0 <? resLimit_ s then Returned (mkSemaphore (resLimit_ s - 1)) else Blocked.

(** [release_]: adds one resource and notifies.  [resLimit_] is an [int];
    the count is kept without a bound here.  Along every run the semaphore
    of a [Result] counts 0 or 1 (module [ResultInv]), so that the increment
    stays far from [INT_MAX]. *)
Definition release_ (s : Semaphore) : Semaphore := mkSemaphore (resLimit_ s + 1).

(** Objects live in two heaps, one of [Task]s and one of [Result]s; a
    pointer is an index. *)
Definition TaskPtr := nat.
Definition ResultPtr := nat.

Record Result : Type := mkResult {
  any_ : Any;
  sem_ : Semaphore;
  task_ : TaskPtr;
  isValid_ : bool
}.

(** What the user's [run()] does when called. *)
Inductive Outcome : Type :=
| Returns (v : Any)
| Raises (what : string).

Record Task : Type := mkTask {
  run : Outcome;
  result_ : option ResultPtr
}.

(** [Task::Task() : result_(nullptr)] for a user task with the given [run]. *)
Definition Task_ctor (r : Outcome) : Task := mkTask r None.

(** [Task::setResult] *)
Definition setResult (res : ResultPtr) (t : Task) : Task := mkTask (run t) (Some res).

(** [Result::Result(task, isValid)]: the new object is placed at the end
    of the result heap and the task is made to point back to it. *)
Definition Result_ctor (task : TaskPtr) (isValid : bool)
    (tasks : list Task) (results : list Result)
    : list Task * list Result * ResultPtr :=
  let this := length results in
  (alter (setResult this) task tasks,
   results ++ [mkResult Any_default (Semaphore_ctor 0) task isValid],
   this).

(** [Result::setVal] *)
Definition setVal (any : Any) (r : Result) : Result :=
  mkResult any (release_ (sem_ r)) (task_ r) (isValid_ r).

(** [Result::get]: the value is moved out of [any_], which is left null. *)
Definition get (r : Result) : blocking (Any * Result) :=
  if negb (isValid_ r) then Returned (Any_of T_cstr EmptyString, r)
  else
    match acquire_ (sem_ r) with
    | Blocked => Blocked
    | Returned s =>
        Returned (any_ r, mkResult Any_default s (task_ r) (isValid_ r))
    end.

(** [Task::exec]: [run()] is called only when a result is bound, and
    nothing in [exec] handles what [run()] throws. *)
Definition exec (t : Task) (results : list Result) : thrown (list Result) :=
  match result_ t with
  | None => Ret results
  | Some res =>
      match run t with
      | Returns v => Ret (alter (setVal v) res results)
      | Raises what => Throw what
      end
  end.

End Channel.

(** ** The pool object *)

Inductive CondVar : Type := notFull_ | notEmpty_ | exitCond_.

(** What a step does to the queue, the registry and the condition
    variables, in program order. *)
Inductive Event : Type :=
| EvEnqueue (task : Channel.TaskPtr)   (* taskQue_.emplace(task) *)
| EvDequeue (task : Channel.TaskPtr)   (* taskQue_.front(); taskQue_.pop() *)
| EvNotifyAll (cv : CondVar)           (* cv.notify_all() *)
| EvErase (threadId : Z)               (* threads_.erase(threadId) *)
| EvStartThread (threadId : Z)         (* Thread::start() *)
| EvExec (task : Channel.TaskPtr).     (* task->exec() returned *)

Module Pool.
Import Cxx Channel.

Inductive PoolMode : Type := MODE_FIXED | MODE_CACHED.

Definition TASK_MAX_THRESHOLD : Z := 1024.
Definition THREAD_MAX_THRESHOLD : Z := 100.
Definition THREAD_MAX_IDLE_TIME : Z := 10.

(** Ticks of [high_resolution_clock] in one second (nanoseconds). *)
Definition ticks_per_second : Z := 1000000000.

(** A [Thread] object; [func_] is always [threadFunc] bound to the pool. *)
Record Thread : Type := mkThread { threadId_ : Z }.

Record ThreadPool : Type := mkPool {
  threads_ : gmap Z Thread;        (* unordered_map<int, unique_ptr<Thread>> *)
  initThreadSize_ : Z;             (* size_t *)
  idleThreadSize_ : Z;             (* atomic_int *)
  curThreadSize_ : Z;              (* atomic_int *)
  threadSizeThreshold_ : Z;        (* size_t *)
  taskQue_ : list TaskPtr;         (* queue<shared_ptr<Task>> *)
  taskSize_ : Z;                   (* atomic_uint *)
  taskQueMaxThreshold_ : Z;        (* int *)
  poolMode_ : PoolMode;
  isPoolRunning_ : bool            (* atomic_bool *)
}.

Definition with_threads v p :=
  mkPool v (initThreadSize_ p) (idleThreadSize_ p) (curThreadSize_ p)
    (threadSizeThreshold_ p) (taskQue_ p) (taskSize_ p)
    (taskQueMaxThreshold_ p) (poolMode_ p) (isPoolRunning_ p).
Definition with_init v p :=
  mkPool (threads_ p) v (idleThreadSize_ p) (curThreadSize_ p)
    (threadSizeThreshold_ p) (taskQue_ p) (taskSize_ p)
    (taskQueMaxThreshold_ p) (poolMode_ p) (isPoolRunning_ p).
Definition with_idle v p :=
  mkPool (threads_ p) (initThreadSize_ p) v (curThreadSize_ p)
    (threadSizeThreshold_ p) (taskQue_ p) (taskSize_ p)
    (taskQueMaxThreshold_ p) (poolMode_ p) (isPoolRunning_ p).
Definition with_cur v p :=
  mkPool (threads_ p) (initThreadSize_ p) (idleThreadSize_ p) v
    (threadSizeThreshold_ p) (taskQue_ p) (taskSize_ p)
    (taskQueMaxThreshold_ p) (poolMode_ p) (isPoolRunning_ p).
Definition with_threshold v p :=
  mkPool (threads_ p) (initThreadSize_ p) (idleThreadSize_ p) (curThreadSize_ p)
    v (taskQue_ p) (taskSize_ p)
    (taskQueMaxThreshold_ p) (poolMode_ p) (isPoolRunning_ p).
Definition with_que v p :=
  mkPool (threads_ p) (initThreadSize_ p) (idleThreadSize_ p) (curThreadSize_ p)
    (threadSizeThreshold_ p) v (taskSize_ p)
    (taskQueMaxThreshold_ p) (poolMode_ p) (isPoolRunning_ p).
Definition with_taskSize v p :=
  mkPool (threads_ p) (initThreadSize_ p) (idleThreadSize_ p) (curThreadSize_ p)
    (threadSizeThreshold_ p) (taskQue_ p) v
    (taskQueMaxThreshold_ p) (poolMode_ p) (isPoolRunning_ p).
Definition with_queMax v p :=
  mkPool (threads_ p) (initThreadSize_ p) (idleThreadSize_ p) (curThreadSize_ p)
    (threadSizeThreshold_ p) (taskQue_ p) (taskSize_ p)
    v (poolMode_ p) (isPoolRunning_ p).
Definition with_mode v p :=
  mkPool (threads_ p) (initThreadSize_ p) (idleThreadSize_ p) (curThreadSize_ p)
    (threadSizeThreshold_ p) (taskQue_ p) (taskSize_ p)
    (taskQueMaxThreshold_ p) v (isPoolRunning_ p).
Definition with_running v p :=
  mkPool (threads_ p) (initThreadSize_ p) (idleThreadSize_ p) (curThreadSize_ p)
    (threadSizeThreshold_ p) (taskQue_ p) (taskSize_ p)
    (taskQueMaxThreshold_ p) (poolMode_ p) v.

(** [ThreadPool::ThreadPool()] *)
Definition ThreadPool_ctor : ThreadPool :=
  mkPool ∅ 4 0 0 THREAD_MAX_THRESHOLD [] 0 TASK_MAX_THRESHOLD MODE_FIXED false.

(** [checkRunningState] *)
Definition checkRunningState (p : ThreadPool) : bool := isPoolRunning_ p.

(** [setMode] *)
Definition setMode (mode : PoolMode) (p : ThreadPool) : ThreadPool :=
  if checkRunningState p then p else with_mode mode p.

(** [setTaskQueMaxThreshold] *)
Definition setTaskQueMaxThreshold (threshold : Z) (p : ThreadPool) : ThreadPool :=
  if checkRunningState p then p else with_queMax threshold p.

(** [setThreadSizeThreshold]: the [int] argument is stored in a [size_t]. *)
Definition setThreadSizeThreshold (threshold : Z) (p : ThreadPool) : ThreadPool :=
  if checkRunningState p then p
  else match poolMode_ p with
       | MODE_CACHED => with_threshold (to_size_t threshold) p
       | MODE_FIXED => p
       end.

(** [Thread::Thread(func)]: [threadId_(generatedId_++)] on the static
    [int] counter; incrementing [INT_MAX] is undefined ([None]). *)
Definition Thread_ctor (generatedId : Z) : option (Thread * Z) :=
  if generatedId <? INT_MAX then Some (mkThread generatedId, generatedId + 1)
  else None.

(** [unordered_map::emplace]: an existing key is left as it is. *)
Definition emplace (k : Z) (t : Thread) (m : gmap Z Thread) : gmap Z Thread :=
  match m !! k with
  | Some _ => m
  | None => <[k := t]> m
  end.

(** *** submitTask *)

(** The predicate of [notFull_.wait_for]:
    [taskQue_.size() < (size_t)taskQueMaxThreshold_]. *)
Definition not_full (p : ThreadPool) : bool :=
  Z.of_nat (length (taskQue_ p)) <? to_size_t (taskQueMaxThreshold_ p).

(** The condition of the cached-mode growth: [taskSize_ > idleThreadSize_]
    compares an [unsigned] with an [int], [curThreadSize_ <
    threadSizeThreshold_] an [int] with a [size_t]. *)
Definition needs_new_thread (p : ThreadPool) : bool :=
  match poolMode_ p with
  | MODE_CACHED =>
      (to_uint (idleThreadSize_ p) <? taskSize_ p)
      && (to_size_t (curThreadSize_ p) <? threadSizeThreshold_ p)
  | MODE_FIXED => false
  end.

(** The body of [submitTask] once the wait has succeeded, up to the
    construction of the returned [Result]: the new pool, the new
    [generatedId_], the ids of the threads started, and the events. *)
Definition submit_accept (task : TaskPtr) (p : ThreadPool) (generatedId : Z)
    : option (ThreadPool * Z * list Z * list Event) :=
  let p1 := with_taskSize (to_uint (taskSize_ p + 1))
              (with_que (taskQue_ p ++ [task]) p) in
  let ev1 := [EvEnqueue task; EvNotifyAll notEmpty_] in
  if needs_new_thread p1 then
    match Thread_ctor generatedId with
    | None => None
    | Some (ptr, g1) =>
        let threadId := threadId_ ptr in
        let p2 := with_threads (emplace threadId ptr (threads_ p1)) p1 in
        match threads_ p2 !! threadId with
        | None => None
        | Some th =>
            Some (with_idle (wrap_int (idleThreadSize_ p2 + 1))
                    (with_cur (wrap_int (curThreadSize_ p2 + 1)) p2),
                  g1, [threadId_ th], ev1 ++ [EvStartThread (threadId_ th)])
        end
    end
  else Some (p1, generatedId, [], ev1).

(** *** start *)

(** First loop of [start]: create and register the [Thread] objects. *)
Fixpoint create_threads (k : nat) (ths : gmap Z Thread) (generatedId : Z)
    : option (gmap Z Thread * Z) :=
  match k with
  | O => Some (ths, generatedId)
  | S k' =>
      match Thread_ctor generatedId with
      | None => None
      | Some (ptr, g1) => create_threads k' (emplace (threadId_ ptr) ptr ths) g1
      end
  end.

(** Second loop of [start]: [threads_[i]->start(); idleThreadSize_++] for
    [i] from the given index on.  [threads_[i]] on a key that is not in
    the map yields a null [unique_ptr], whose dereference is undefined
    ([None]). *)
Fixpoint start_threads (k : nat) (i : Z) (p : ThreadPool)
    : option (ThreadPool * list Z) :=
  match k with
  | O => Some (p, [])
  | S k' =>
      match threads_ p !! i with
      | None => None
      | Some th =>
          match start_threads k' (i + 1)
                  (with_idle (wrap_int (idleThreadSize_ p + 1)) p) with
          | None => None
          | Some (p', ids) => Some (p', threadId_ th :: ids)
          end
      end
  end.

(** [start(int initThreadSize)].  The loops compare an [int] counter with
    the [size_t] member: for a negative argument the bound is above
    [INT_MAX] and the counter overflows, which is undefined ([None]). *)
Definition start (initThreadSize : Z) (p : ThreadPool) (generatedId : Z)
    : option (ThreadPool * Z * list Z * list Event) :=
  if (0 <=? initThreadSize) && (initThreadSize <=? INT_MAX) then
    let p1 := with_cur initThreadSize
                (with_init (to_size_t initThreadSize) (with_running true p)) in
    match create_threads (Z.to_nat initThreadSize) (threads_ p1) generatedId with
    | None => None
    | Some (ths, g1) =>
        match start_threads (Z.to_nat initThreadSize) 0 (with_threads ths p1) with
        | None => None
        | Some (p2, ids) => Some (p2, g1, ids, map EvStartThread ids)
        end
    end
  else None.

(** *** threadFunc *)

(** Lines 222-237: the worker takes the task at the front of the queue. *)
Definition take_task (p : ThreadPool) : option (TaskPtr * ThreadPool * list Event) :=
  match taskQue_ p with
  | [] => None
  | task :: rest =>
      Some (task,
            with_taskSize (to_uint (taskSize_ p - 1))
              (with_que rest
                 (with_idle (wrap_int (idleThreadSize_ p - 1)) p)),
            EvDequeue task
            :: (match rest with
                | [] => []
                | _ :: _ => [EvNotifyAll notEmpty_]
                end)
            ++ [EvNotifyAll notFull_])
  end.

(** Lines 170-173: the exit taken when the queue is empty and the pool is
    not running. *)
Definition exit_on_shutdown (threadId : Z) (p : ThreadPool)
    : ThreadPool * list Event :=
  (with_threads (delete threadId (threads_ p)) p,
   [EvErase threadId; EvNotifyAll exitCond_]).

(** Lines 182-185: the two conditions of the idle retirement. *)
Definition idle_too_long (now lastTime : Z) : bool :=
  THREAD_MAX_IDLE_TIME <=? Z.quot (now - lastTime) ticks_per_second.

Definition surplus (p : ThreadPool) : bool :=
  initThreadSize_ p <? to_size_t (curThreadSize_ p).

(** Lines 191-195: the idle retirement itself. *)
Definition retire (threadId : Z) (p : ThreadPool) : ThreadPool * list Event :=
  (with_idle (wrap_int (idleThreadSize_ p - 1))
     (with_cur (wrap_int (curThreadSize_ p - 1))
        (with_threads (delete threadId (threads_ p)) p)),
   [EvErase threadId]).

(** *** ~ThreadPool *)

(** The predicate of [exitCond_.wait]: [threads_.size() == 0]. *)
Definition registry_empty (p : ThreadPool) : bool := Nat.eqb (size (threads_ p)) 0.

End Pool.

(** ** The threads and their interleaving *)

Module Sched.
Import Cxx Channel Pool.

(** The program is a set of threads around one [ThreadPool] object: the
    owner, which constructs the pool, calls its member functions and in the
    end runs its destructor; one thread for every [submitTask] call in
    progress; and one thread for every started [Thread], running
    [threadFunc].

    A step is a stretch of code of one thread between two points at which
    the other threads can interfere: taking the mutex, entering a wait, or
    touching an atomic member outside the mutex.  [start] is one step.

    Time is a counter advanced by [ATick].  A wait ends by [notify_all], or
    by itself (the timer of [wait_for], or a spurious wake-up); whether a
    [wait_for] reports a timeout is decided by the clock once the mutex is
    taken again.

    Undefined behaviour (a null dereference, a signed overflow) has no
    step.  The pool is used while it is alive: [submitTask] is entered
    before the owner enters the destructor, and the destructor is entered
    when no [submitTask] call is in progress. *)

Inductive Tid : Type :=
| TMain                 (* the thread that owns the pool object *)
| TCall (i : nat)       (* the thread inside the i-th [submitTask] call *)
| TWorker (i : nat).    (* the i-th thread running [threadFunc] *)

(** Where a thread running [threadFunc] stands. *)
Inductive WPc : Type :=
| WStart                           (* line 146 *)
| WTop                             (* line 155, about to lock *)
| WLocked                          (* line 165, at the [while], mutex held *)
| WEmpty                           (* line 168, queue seen empty, mutex held *)
| WRunning                         (* line 176, pool seen running, mutex held *)
| WBlocked (deadline : option Z)   (* inside [wait]/[wait_for], mutex released *)
| WReady (deadline : option Z)     (* woken up, about to take the mutex again *)
| WTimedOut                        (* line 182, [wait_for] timed out, mutex held *)
| WExec (task : TaskPtr)           (* line 241 *)
| WAfterExec                       (* line 249 *)
| WExited.                         (* [threadFunc] returned *)

Record Worker : Type := mkWorker {
  w_threadId : Z;      (* the argument of [threadFunc] *)
  w_lastTime : Z;
  w_pc : WPc
}.

(** Where a [submitTask] call stands. *)
Inductive CPc : Type :=
| CTop                                     (* line 72, about to lock *)
| CLocked (deadline : Z) (timeout : bool)  (* in [wait_for], at the predicate, mutex held *)
| CBlocked (deadline : Z)                  (* in [wait_for], mutex released *)
| CReady (deadline : Z)                    (* woken up, about to take the mutex again *)
| CDone (res : ResultPtr).                 (* returned this [Result] *)

Record Call : Type := mkCall { c_task : TaskPtr; c_pc : CPc }.

(** Where the owner of the pool stands. *)
Inductive MPc : Type :=
| MUser        (* the pool is constructed and in use *)
| DEntered     (* in the destructor, after line 28 *)
| DLocked      (* after line 41, mutex held *)
| DNotified    (* line 43, at the predicate of [exitCond_.wait], mutex held *)
| DBlocked     (* inside [exitCond_.wait], mutex released *)
| DReady       (* woken up, about to take the mutex again *)
| MDone.       (* the destructor returned *)

Record State : Type := mkState {
  pool : ThreadPool;
  generatedId_ : Z;              (* the static [Thread::generatedId_] *)
  taskQueMtx_ : option Tid;      (* the owner of the mutex, if any *)
  main : MPc;
  calls : list Call;
  workers : list Worker;
  tasks : list Task;
  results : list Result;
  now : Z;                       (* [high_resolution_clock] *)
  terminated : bool              (* [std::terminate] was called *)
}.

Definition with_pool v s :=
  mkState v (generatedId_ s) (taskQueMtx_ s) (main s) (calls s) (workers s)
    (tasks s) (results s) (now s) (terminated s).
Definition with_mtx v s :=
  mkState (pool s) (generatedId_ s) v (main s) (calls s) (workers s)
    (tasks s) (results s) (now s) (terminated s).
Definition with_main v s :=
  mkState (pool s) (generatedId_ s) (taskQueMtx_ s) v (calls s) (workers s)
    (tasks s) (results s) (now s) (terminated s).
Definition with_calls v s :=
  mkState (pool s) (generatedId_ s) (taskQueMtx_ s) (main s) v (workers s)
    (tasks s) (results s) (now s) (terminated s).
Definition with_workers v s :=
  mkState (pool s) (generatedId_ s) (taskQueMtx_ s) (main s) (calls s) v
    (tasks s) (results s) (now s) (terminated s).
Definition with_heap tk rs s :=
  mkState (pool s) (generatedId_ s) (taskQueMtx_ s) (main s) (calls s) (workers s)
    tk rs (now s) (terminated s).
Definition with_generatedId v s :=
  mkState (pool s) v (taskQueMtx_ s) (main s) (calls s) (workers s)
    (tasks s) (results s) (now s) (terminated s).
Definition with_now v s :=
  mkState (pool s) (generatedId_ s) (taskQueMtx_ s) (main s) (calls s) (workers s)
    (tasks s) (results s) v (terminated s).
Definition with_terminated v s :=
  mkState (pool s) (generatedId_ s) (taskQueMtx_ s) (main s) (calls s) (workers s)
    (tasks s) (results s) (now s) v.

Definition set_wpc (pc : WPc) (w : Worker) : Worker :=
  mkWorker (w_threadId w) (w_lastTime w) pc.
Definition set_cpc (pc : CPc) (c : Call) : Call := mkCall (c_task c) pc.

Definition put_worker (i : nat) (w : Worker) (s : State) : State :=
  with_workers (<[i := w]> (workers s)) s.
Definition put_call (i : nat) (c : Call) (s : State) : State :=
  with_calls (<[i := c]> (calls s)) s.

(** *** Condition variables *)

Definition wake_worker (w : Worker) : Worker :=
  match w_pc w with
  | WBlocked d => set_wpc (WReady d) w
  | _ => w
  end.

Definition wake_call (c : Call) : Call :=
  match c_pc c with
  | CBlocked d => set_cpc (CReady d) c
  | _ => c
  end.

Definition wake_main (m : MPc) : MPc :=
  match m with
  | DBlocked => DReady
  | _ => m
  end.

(** [notify_all]: every thread blocked on the condition variable is made
    ready; [notEmpty_] is waited on by the workers, [notFull_] by the
    [submitTask] calls and [exitCond_] by the destructor. *)
Definition notify_all (cv : CondVar) (s : State) : State :=
  match cv with
  | notEmpty_ => with_workers (wake_worker <$> workers s) s
  | notFull_ => with_calls (wake_call <$> calls s) s
  | exitCond_ => with_main (wake_main (main s)) s
  end.

Definition deliver1 (s : State) (e : Event) : State :=
  match e with
  | EvNotifyAll cv => notify_all cv s
  | _ => s
  end.

Definition deliver (evs : list Event) (s : State) : State :=
  fold_left deliver1 evs s.

(** A started [Thread]: a new OS thread that enters [threadFunc(id)]. *)
Definition spawn (ids : list Z) (s : State) : State :=
  with_workers (workers s ++ map (fun id => mkWorker id 0 WStart) ids) s.

(** *** Scheduling choices *)

Inductive Action : Type :=
| ASetMode (mode : PoolMode)
| ASetTaskQueMaxThreshold (threshold : Z)
| ASetThreadSizeThreshold (threshold : Z)
| AStart (initThreadSize : Z)
| ASubmit (r : Outcome)    (* some thread enters [submitTask] with a new task *)
| ADestroy                 (* the owner takes the next step of [~ThreadPool] *)
| ACall (i : nat)          (* the i-th [submitTask] call takes its next step *)
| AWorker (i : nat)        (* the i-th worker takes its next step *)
| ACallWake (i : nat)      (* [wait_for] of call i ends by itself *)
| AWorkerWake (i : nat)    (* [wait]/[wait_for] of worker i ends by itself *)
| AMainWake                (* spurious wake-up of [exitCond_.wait] *)
| ATick (d : Z).           (* time passes *)

Definition call_done (c : Call) : bool :=
  match c_pc c with
  | CDone _ => true
  | _ => false
  end.

Definition mtx_free (s : State) : bool :=
  match taskQueMtx_ s with
  | None => true
  | Some _ => false
  end.

(** The owner of the pool.  Member functions are called while the object
    is alive ([MUser]); the destructor is entered once no [submitTask]
    call is in progress. *)
Definition step_main (a : Action) (s : State) : option (State * list Event) :=
  match a, main s with
  | ASetMode mode, MUser => Some (with_pool (setMode mode (pool s)) s, [])
  | ASetTaskQueMaxThreshold n, MUser =>
      Some (with_pool (setTaskQueMaxThreshold n (pool s)) s, [])
  | ASetThreadSizeThreshold n, MUser =>
      Some (with_pool (setThreadSizeThreshold n (pool s)) s, [])
  | AStart n, MUser =>
      match start n (pool s) (generatedId_ s) with
      | None => None
      | Some (p, g, ids, evs) =>
          Some (spawn ids (with_generatedId g (with_pool p s)), evs)
      end
  | ASubmit r, MUser =>
      Some (with_calls (calls s ++ [mkCall (length (tasks s)) CTop])
              (with_heap (tasks s ++ [Task_ctor r]) (results s) s), [])
  | ADestroy, MUser =>
      if forallb call_done (calls s)
      then Some (with_main DEntered (with_pool (with_running false (pool s)) s), [])
      else None
  | ADestroy, DEntered =>
      if mtx_free s then Some (with_main DLocked (with_mtx (Some TMain) s), [])
      else None
  | ADestroy, DLocked =>
      Some (with_main DNotified (notify_all notEmpty_ s), [EvNotifyAll notEmpty_])
  | ADestroy, DNotified =>
      if registry_empty (pool s)
      then Some (with_main MDone (with_mtx None s), [])
      else Some (with_main DBlocked (with_mtx None s), [])
  | ADestroy, DReady =>
      if mtx_free s then Some (with_main DNotified (with_mtx (Some TMain) s), [])
      else None
  | AMainWake, DBlocked => Some (with_main DReady s, [])
  | _, _ => None
  end.

(** One step of a [submitTask] call. *)
Definition step_call (i : nat) (c : Call) (s : State) : option (State * list Event) :=
  match c_pc c with
  | CTop =>
      if mtx_free s
      then Some (put_call i (set_cpc (CLocked (now s + ticks_per_second) false) c)
                   (with_mtx (Some (TCall i)) s), [])
      else None
  | CLocked deadline timeout =>
      if not_full (pool s) then
        match submit_accept (c_task c) (pool s) (generatedId_ s) with
        | None => None
        | Some (p, g, ids, evs) =>
            let '(tk, rs, res) := Result_ctor (c_task c) true (tasks s) (results s) in
            Some (deliver evs
                    (spawn ids
                       (put_call i (set_cpc (CDone res) c)
                          (with_heap tk rs
                             (with_generatedId g
                                (with_pool p (with_mtx None s)))))), evs)
        end
      else if timeout then
        let '(tk, rs, res) := Result_ctor (c_task c) false (tasks s) (results s) in
        Some (put_call i (set_cpc (CDone res) c)
                (with_heap tk rs (with_mtx None s)), [])
      else Some (put_call i (set_cpc (CBlocked deadline) c) (with_mtx None s), [])
  | CReady deadline =>
      if mtx_free s
      then Some (put_call i (set_cpc (CLocked deadline (deadline <=? now s)) c)
                   (with_mtx (Some (TCall i)) s), [])
      else None
  | CBlocked _ | CDone _ => None
  end.

(** One step of a thread running [threadFunc]. *)
Definition step_worker (i : nat) (w : Worker) (s : State) : option (State * list Event) :=
  match w_pc w with
  | WStart =>
      Some (put_worker i (mkWorker (w_threadId w) (now s) WTop) s, [])
  | WTop =>
      if mtx_free s
      then Some (put_worker i (set_wpc WLocked w) (with_mtx (Some (TWorker i)) s), [])
      else None
  | WLocked =>
      match take_task (pool s) with
      | None => Some (put_worker i (set_wpc WEmpty w) s, [])
      | Some (task, p, evs) =>
          Some (deliver evs
                  (put_worker i (set_wpc (WExec task) w)
                     (with_pool p (with_mtx None s))), evs)
      end
  | WEmpty =>
      if negb (isPoolRunning_ (pool s)) then
        let '(p, evs) := exit_on_shutdown (w_threadId w) (pool s) in
        Some (deliver evs
                (put_worker i (set_wpc WExited w)
                   (with_pool p (with_mtx None s))), evs)
      else Some (put_worker i (set_wpc WRunning w) s, [])
  | WRunning =>
      match poolMode_ (pool s) with
      | MODE_CACHED =>
          Some (put_worker i (set_wpc (WBlocked (Some (now s + ticks_per_second))) w)
                  (with_mtx None s), [])
      | MODE_FIXED =>
          Some (put_worker i (set_wpc (WBlocked None) w) (with_mtx None s), [])
      end
  | WReady deadline =>
      if mtx_free s then
        let pc := match deadline with
                  | Some d => if d <=? now s then WTimedOut else WLocked
                  | None => WLocked
                  end in
        Some (put_worker i (set_wpc pc w) (with_mtx (Some (TWorker i)) s), [])
      else None
  | WTimedOut =>
      if idle_too_long (now s) (w_lastTime w) && surplus (pool s) then
        let '(p, evs) := retire (w_threadId w) (pool s) in
        Some (deliver evs
                (put_worker i (set_wpc WExited w)
                   (with_pool p (with_mtx None s))), evs)
      else Some (put_worker i (set_wpc WLocked w) s, [])
  | WExec task =>
      match tasks s !! task with
      | None => None
      | Some t =>
          match exec t (results s) with
          | Ret rs =>
              Some (put_worker i (set_wpc WAfterExec w)
                      (with_heap (tasks s) rs s), [EvExec task])
          | Throw _ =>
              (* nothing catches it: the thread function exits by an
                 exception and the process is terminated *)
              Some (with_terminated true s, [])
          end
      end
  | WAfterExec =>
      Some (put_worker i (mkWorker (w_threadId w) (now s) WTop)
              (with_pool (with_idle (wrap_int (idleThreadSize_ (pool s) + 1)) (pool s)) s),
            [])
  | WBlocked _ | WExited => None
  end.

Definition step (a : Action) (s : State) : option (State * list Event) :=
  if terminated s then None
  else
    match a with
    | ACall i =>
        match calls s !! i with
        | Some c => step_call i c s
        | None => None
        end
    | AWorker i =>
        match workers s !! i with
        | Some w => step_worker i w s
        | None => None
        end
    | ACallWake i =>
        match calls s !! i with
        | Some c =>
            match c_pc c with
            | CBlocked d => Some (put_call i (set_cpc (CReady d) c) s, [])
            | _ => None
            end
        | None => None
        end
    | AWorkerWake i =>
        match workers s !! i with
        | Some w =>
            match w_pc w with
            | WBlocked d => Some (put_worker i (set_wpc (WReady d) w) s, [])
            | _ => None
            end
        | None => None
        end
    | ATick d => if 0 <? d then Some (with_now (now s + d) s, []) else None
    | _ => step_main a s
    end.

Fixpoint run_all (acts : list Action) (s : State) : option (State * list Event) :=
  match acts with
  | [] => Some (s, [])
  | a :: rest =>
      match step a s with
      | None => None
      | Some (s1, e1) =>
          match run_all rest s1 with
          | None => None
          | Some (s2, e2) => Some (s2, e1 ++ e2)
          end
      end
  end.

(** The process starts with the pool constructed and nothing else. *)
Definition init : State :=
  mkState ThreadPool_ctor 0 None MUser [] [] [] [] 0 false.

Definition reachable (s : State) : Prop :=
  exists acts evs, run_all acts init = Some (s, evs).

End Sched.

(** ** The predicates of the invariants *)

Module Props.
Import Cxx Channel Pool Sched.

(** A worker after [deliver] is the worker before, possibly woken. *)
Definition woken_worker (w w' : Worker) : Prop := w' = w \/ w' = wake_worker w.
Definition woken_call (c c' : Call) : Prop := c' = c \/ c' = wake_call c.
Definition woken_main (m m' : MPc) : Prop := m' = m \/ m' = wake_main m.

Definition w_holds (pc : WPc) : bool :=
  match pc with
  | WLocked | WEmpty | WRunning | WTimedOut => true
  | _ => false
  end.

Definition c_holds (pc : CPc) : bool :=
  match pc with
  | CLocked _ _ => true
  | _ => false
  end.

Definition m_holds (m : MPc) : bool :=
  match m with
  | DLocked | DNotified => true
  | _ => false
  end.

(** Whoever stands inside a critical section owns the mutex. *)
Record mutex_inv (s : State) : Prop := {
  mx_worker : forall i w, workers s !! i = Some w -> w_holds (w_pc w) = true ->
                          taskQueMtx_ s = Some (TWorker i);
  mx_call : forall i c, calls s !! i = Some c -> c_holds (c_pc c) = true ->
                        taskQueMtx_ s = Some (TCall i);
  mx_main : m_holds (main s) = true -> taskQueMtx_ s = Some TMain
}.

(** Every key of the registry was handed out by [generatedId_]. *)
Definition keys_below (ths : gmap Z Thread) (g : Z) : Prop :=
  forall k, is_Some (ths !! k) -> k < g.

(** The fields that [start_threads] leaves as they are: all but
    [idleThreadSize_]. *)
Definition same_but_idle (p p' : ThreadPool) : Prop :=
  threads_ p' = threads_ p /\ initThreadSize_ p' = initThreadSize_ p /\
  curThreadSize_ p' = curThreadSize_ p /\
  threadSizeThreshold_ p' = threadSizeThreshold_ p /\
  taskQue_ p' = taskQue_ p /\ taskSize_ p' = taskSize_ p /\
  taskQueMaxThreshold_ p' = taskQueMaxThreshold_ p /\
  poolMode_ p' = poolMode_ p /\ isPoolRunning_ p' = isPoolRunning_ p.

(** A setter either does nothing or was called on a stopped pool, of
    which it changes one configuration field. *)
Definition configured (p p' : ThreadPool) : Prop :=
  p' = p \/
  (isPoolRunning_ p = false /\ isPoolRunning_ p' = false /\
   threads_ p' = threads_ p /\ taskQue_ p' = taskQue_ p /\
   initThreadSize_ p' = initThreadSize_ p /\
   curThreadSize_ p' = curThreadSize_ p).

(** The counters of a running pool. *)
Definition counters_ok (p : ThreadPool) : Prop :=
  0 <= initThreadSize_ p <= curThreadSize_ p /\
  curThreadSize_ p <= Z.max (initThreadSize_ p) (threadSizeThreshold_ p) /\
  initThreadSize_ p <= INT_MAX /\
  curThreadSize_ p <= Z.of_nat (size (threads_ p)).

(** The registry keys are generated ids, the flag is true only between
    [start] and the destructor, and the counters of a running pool are in
    order. *)
Record pool_inv (s : State) : Prop := {
  pi_keys : keys_below (threads_ (pool s)) (generatedId_ s);
  pi_running : isPoolRunning_ (pool s) = true -> main s = MUser;
  pi_counters : isPoolRunning_ (pool s) = true ->
                threadSizeThreshold_ (pool s) <= INT_MAX ->
                counters_ok (pool s)
}.

(** The worker stands between the [while] test that found the queue empty
    and the wait. *)
Definition sees_empty (pc : WPc) : bool :=
  match pc with
  | WEmpty | WRunning => true
  | _ => false
  end.

(** A worker that found the queue empty still holds the mutex, so the
    queue is still empty; no [submitTask] call is in progress once the
    destructor is entered; the destructor returns on an empty registry. *)
Record drain_inv (s : State) : Prop := {
  di_empty : forall i w, workers s !! i = Some w -> sees_empty (w_pc w) = true ->
                         taskQue_ (pool s) = [];
  di_calls : main s <> MUser ->
             forall i c, calls s !! i = Some c -> call_done c = true;
  di_done : main s = MDone -> size (threads_ (pool s)) = 0%nat
}.

(** The invariants of every reachable state. *)
Record all_inv (s : State) : Prop := {
  ai_mutex : mutex_inv s;
  ai_pool : pool_inv s;
  ai_drain : drain_inv s
}.



(** The worker has read [isPoolRunning_ == true] and is about to wait, or
    is waiting and has not been woken. *)
Definition commits_to_wait (pc : WPc) : bool :=
  match pc with
  | WRunning | WBlocked _ => true
  | _ => false
  end.

(** The destructor has written the flag and has yet to broadcast. *)
Definition broadcast_pending (m : MPc) : bool :=
  match m with
  | DEntered | DLocked => true
  | _ => false
  end.

(** Once the flag is false, a worker can commit to a wait only before the
    destructor's broadcast. *)
Definition no_lost_wakeup (s : State) : Prop :=
  isPoolRunning_ (pool s) = false ->
  forall i w, workers s !! i = Some w -> commits_to_wait (w_pc w) = true ->
              broadcast_pending (main s) = true.

(** The tasks accepted into the queue and the tasks taken from it, in the
    order of the events. *)
Fixpoint accepted (evs : list Event) : list TaskPtr :=
  match evs with
  | [] => []
  | EvEnqueue t :: rest => t :: accepted rest
  | _ :: rest => accepted rest
  end.

Fixpoint dequeued (evs : list Event) : list TaskPtr :=
  match evs with
  | [] => []
  | EvDequeue t :: rest => t :: dequeued rest
  | _ :: rest => dequeued rest
  end.

(** The thread has returned from [threadFunc]. *)
Definition worker_exited (w : Worker) : bool :=
  match w_pc w with
  | WExited => true
  | _ => false
  end.

(** The destructor waits on [exitCond_] and no other thread is left. *)
Definition stranded (s : State) : bool :=
  match main s with DBlocked => true | _ => false end
  && forallb worker_exited (workers s)
  && forallb call_done (calls s).



(** The tasks whose [exec] has returned, in the order of the events. *)
Fixpoint executed (evs : list Event) : list TaskPtr :=
  match evs with
  | [] => []
  | EvExec t :: rest => t :: executed rest
  | _ :: rest => executed rest
  end.

(** The registry key of a thread that has not returned from [threadFunc]. *)
Definition live_id (w : Worker) : list Z :=
  if worker_exited w then [] else [w_threadId w].

Definition live_ids (s : State) : list Z := workers s ≫= live_id.





(** [n] calls of [release_], and [n] calls of [acquire_] one after the other. *)
Definition releases (n : nat) (s : Semaphore) : Semaphore := Nat.iter n release_ s.

Fixpoint acquires (n : nat) (s : Semaphore) : blocking Semaphore :=
  match n with
  | O => Returned s
  | S n' =>
      match acquire_ s with
      | Blocked => Blocked
      | Returned s' => acquires n' s'
      end
  end.

(** What the three setters configure. *)
Definition config (p : ThreadPool) : PoolMode * Z * Z :=
  (poolMode_ p, taskQueMaxThreshold_ p, threadSizeThreshold_ p).

(** The pool has been started, or its destructor has been entered. *)
Definition in_use (s : State) : Prop :=
  isPoolRunning_ (pool s) = true \/ main s <> MUser.

(** [taskSize_] is [taskQue_.size()], as an [unsigned]. *)
Definition size_mirrors_queue (p : ThreadPool) : Prop :=
  taskSize_ p = to_uint (Z.of_nat (length (taskQue_ p))).

(** The queue is no longer than its threshold. *)
Definition within_capacity (p : ThreadPool) : Prop :=
  Z.of_nat (length (taskQue_ p)) <= to_size_t (taskQueMaxThreshold_ p).

Definition sets_capacity (a : Action) : bool :=
  match a with
  | ASetTaskQueMaxThreshold _ => true
  | _ => false
  end.

(** The thread stands between taking the mutex and releasing it. *)
Definition in_critical_section (s : State) (t : Tid) : bool :=
  match t with
  | TMain => m_holds (main s)
  | TCall i =>
      match calls s !! i with
      | Some c => c_holds (c_pc c)
      | None => false
      end
  | TWorker i =>
      match workers s !! i with
      | Some w => w_holds (w_pc w)
      | None => false
      end
  end.

(** The thread is inside [notEmpty_.wait] or [wait_for] and has not been
    woken. *)
Definition asleep (pc : WPc) : bool :=
  match pc with
  | WBlocked _ => true
  | _ => false
  end.

Definition no_sleeper (ws : list Worker) : Prop :=
  forall i w, ws !! i = Some w -> asleep (w_pc w) = false.

(** The thread has read [isPoolRunning_] as true and has not come back to
    the head of its loop since. *)
Definition saw_running (pc : WPc) : bool :=
  match pc with
  | WRunning | WBlocked _ | WReady _ | WTimedOut => true
  | _ => false
  end.

(** The thread is in [wait_for], or has returned from it with a timeout. *)
Definition timed (pc : WPc) : bool :=
  match pc with
  | WBlocked (Some _) | WReady (Some _) | WTimedOut => true
  | _ => false
  end.

Record wait_inv (s : State) : Prop := {
  wi_use : forall i w, workers s !! i = Some w -> saw_running (w_pc w) = true -> in_use s;
  wi_cached : forall i w, workers s !! i = Some w -> timed (w_pc w) = true ->
                          poolMode_ (pool s) = MODE_CACHED
}.






(** The counters, whatever the thread threshold: [generatedId_] and
    [curThreadSize_] stay within [int], and while the pool is running
    [curThreadSize_] lies between the initial size and the larger of the
    initial size and the threshold, and is at most the size of the
    registry. *)
Record bound_inv (s : State) : Prop := {
  bi_gen : 0 <= generatedId_ s <= INT_MAX;
  bi_cur : 0 <= curThreadSize_ (pool s) <= generatedId_ s;
  bi_init : 0 <= initThreadSize_ (pool s);
  bi_run : isPoolRunning_ (pool s) = true ->
           initThreadSize_ (pool s) <= curThreadSize_ (pool s) /\
           curThreadSize_ (pool s)
           <= Z.max (initThreadSize_ (pool s)) (threadSizeThreshold_ (pool s)) /\
           curThreadSize_ (pool s) <= Z.of_nat (size (threads_ (pool s)))
}.







End Props.

(** ** Example runs *)

Module Runs.
Import Cxx Channel Pool Sched.

(** A task that returns the [int] 7, and one whose [run()] throws. *)
Definition returns7 : Outcome := Returns (Any_of T_int 7).
Definition throws : Outcome := Raises "boom".



Definition state_after (acts : list Action) (s : State) : State :=
  match run_all acts s with
  | Some (s', _) => s'
  | None => s
  end.

Definition events_of (acts : list Action) (s : State) : list Event :=
  match run_all acts s with
  | Some (_, evs) => evs
  | None => []
  end.

(** A capacity of one, one task queued, and a second call whose wait has
    run out after one second. *)
Definition overflow_trace : list Action :=
  [ASetTaskQueMaxThreshold 1;
   ASubmit returns7; ACall 0; ACall 0;
   ASubmit returns7; ACall 1; ACall 1;
   ATick ticks_per_second; ACallWake 1].

(** One worker takes a task whose [run()] throws. *)
Definition throwing_trace : list Action :=
  [AStart 1; ASubmit throws; ACall 0; ACall 0; AWorker 0; AWorker 0; AWorker 0].

Definition fresh_result : Result := mkResult Any_default (Semaphore_ctor 0) 0%nat true.

(** Three tasks are accepted by a pool of two workers, and each worker
    takes one. *)
Definition fifo_trace : list Action :=
  [AStart 2;
   ASubmit returns7; ACall 0; ACall 0;
   ASubmit returns7; ACall 1; ACall 1;
   ASubmit returns7; ACall 2; ACall 2;
   AWorker 1; AWorker 1; AWorker 1;
   AWorker 0; AWorker 0; AWorker 0].

(** A cached pool of two workers grows to three under three queued tasks. *)
Definition growth_trace : list Action :=
  [ASetMode MODE_CACHED; AStart 2;
   ASubmit returns7; ACall 0; ACall 0;
   ASubmit returns7; ACall 1; ACall 1;
   ASubmit returns7; ACall 2; ACall 2].

(** A fixed pool whose one worker is waiting when the destructor has
    taken the mutex. *)
Definition waiting_trace : list Action :=
  [AStart 1; AWorker 0; AWorker 0; AWorker 0; AWorker 0; ADestroy; AWorker 0; ADestroy].

(** A cached pool started with one worker grows to two.  Worker 1 runs its
    task at once and then idles, its one-second waits timing out one after
    the other; worker 0 is busy with its task for ten and a half seconds
    and then waits.  The destructor is entered at the moment the current
    wait of worker 1 runs out: it broadcasts and waits.  Worker 0 leaves by
    the shutdown path; worker 1 finds its wait timed out and itself idle
    for ten seconds, and leaves by the idle path. *)
Definition stranding_trace : list Action :=
  [ASetMode MODE_CACHED; AStart 1;
   ASubmit returns7; ACall 0; ACall 0; ASubmit returns7; ACall 1; ACall 1;
   AWorker 0; AWorker 0; AWorker 0; AWorker 0;
   AWorker 1; AWorker 1; AWorker 1; AWorker 1; AWorker 1;
   AWorker 1; AWorker 1; AWorker 1; AWorker 1;
   ATick 9500000000;
   AWorkerWake 1; AWorker 1; AWorker 1; AWorker 1; AWorker 1; AWorker 1;
   ATick 1000000000;
   AWorker 0; AWorker 0; AWorker 0; AWorker 0; AWorker 0;
   ADestroy; ADestroy; ADestroy; ADestroy;
   AWorker 0; AWorker 0; AWorker 0;
   ADestroy; ADestroy;
   AWorker 1; AWorker 1].


(** A pool in cached mode that is never started: the call that queues the
    task starts a thread, and this thread runs the task. *)
Definition cached_unstarted_trace : list Action :=
  [ASetMode MODE_CACHED; ASubmit returns7; ACall 0; ACall 0;
   AWorker 0; AWorker 0; AWorker 0; AWorker 0].

End Runs.

(** ** Facts about the integer conversions *)

Module CxxFacts.
Import Cxx.

Lemma wrap_int_small z : -2147483648 <= z <= INT_MAX -> wrap_int z = z.
Proof.
  unfold wrap_int, INT_MAX. intros H.
  rewrite Z.mod_small by lia. lia.
Qed.

Lemma to_size_t_small z : 0 <= z <= INT_MAX -> to_size_t z = z.
Proof. unfold to_size_t, INT_MAX. intros H. apply Z.mod_small. lia. Qed.

Lemma to_size_t_range z : 0 <= to_size_t z < 18446744073709551616.
Proof. unfold to_size_t. apply Z.mod_pos_bound. lia. Qed.

End CxxFacts.

(** ** Facts about [Any] *)

Module AnyFacts.
Section Generic.

Context {Ty : Type} `{EqDecision Ty} (den : Ty -> Type).
Import AnyModel.

Lemma cast_same (T : Ty) (v : den T) : cast_ den T (Any_of den T v) = Ret v.
Proof.
  unfold cast_, Any_of; simpl.
  destruct (decide (T = T)) as [e | n]; [| congruence].
  f_equal. symmetry. apply Eqdep_dec.eq_rect_eq_dec. intros x y.
  destruct (decide (x = y)); [left | right]; assumption.
Qed.

Lemma cast_other (T U : Ty) (v : den T) :
  T <> U -> cast_ den U (Any_of den T v) = Throw "type is unmatch!".
Proof.
  intros Hne. unfold cast_, Any_of; simpl.
  destruct (decide (T = U)); [contradiction | reflexivity].
Qed.

Lemma cast_null (U : Ty) : cast_ den U (Any_default den) = Throw "type is unmatch!".
Proof. reflexivity. Qed.

End Generic.
End AnyFacts.

(** ** Basic facts about the step function *)

Module SchedFacts.
Import Cxx Channel Pool Sched Props Runs CxxFacts.


(** A property kept by every step holds along every run_all. *)
Lemma run_invariant (P : State -> Prop) :
  (forall a s s' evs, P s -> step a s = Some (s', evs) -> P s') ->
  forall acts s s' evs, P s -> run_all acts s = Some (s', evs) -> P s'.
Proof.
  intros Hstep acts. induction acts as [| a acts IH]; intros s s' evs HP Hrun; simpl in Hrun.
  - congruence.
  - destruct (step a s) as [[s1 e1] |] eqn:Hs; [| discriminate].
    destruct (run_all acts s1) as [[s2 e2] |] eqn:Hr; [| discriminate].
    injection Hrun as <- _. eapply IH; [| exact Hr]. eapply Hstep; eassumption.
Qed.

Lemma reachable_invariant (P : State -> Prop) :
  P init ->
  (forall a s s' evs, P s -> step a s = Some (s', evs) -> P s') ->
  forall s, reachable s -> P s.
Proof.
  intros H0 Hstep s (acts & evs & Hrun). eapply run_invariant; eassumption.
Qed.



Lemma step_terminated a s : terminated s = true -> step a s = None.
Proof. intros H. unfold step. rewrite H. reflexivity. Qed.

(** *** What [deliver] leaves alone *)

Lemma deliver_pool evs s : pool (deliver evs s) = pool s.
Proof.
  unfold deliver. revert s. induction evs as [| e evs IH]; intros s; simpl; [reflexivity |].
  rewrite IH. destruct e as [| | [] | | |]; reflexivity.
Qed.

Lemma deliver_mtx evs s : taskQueMtx_ (deliver evs s) = taskQueMtx_ s.
Proof.
  unfold deliver. revert s. induction evs as [| e evs IH]; intros s; simpl; [reflexivity |].
  rewrite IH. destruct e as [| | [] | | |]; reflexivity.
Qed.

Lemma deliver_heap evs s :
  tasks (deliver evs s) = tasks s /\ results (deliver evs s) = results s.
Proof.
  unfold deliver. revert s. induction evs as [| e evs IH]; intros s; simpl; [split; reflexivity |].
  destruct (IH (deliver1 s e)) as [-> ->]. destruct e as [| | [] | | |]; split; reflexivity.
Qed.

Lemma deliver_misc evs s :
  generatedId_ (deliver evs s) = generatedId_ s /\
  now (deliver evs s) = now s /\
  terminated (deliver evs s) = terminated s.
Proof.
  unfold deliver. revert s. induction evs as [| e evs IH]; intros s; simpl; [repeat split; reflexivity |].
  destruct (IH (deliver1 s e)) as (-> & -> & ->). destruct e as [| | [] | | |]; repeat split; reflexivity.
Qed.

Lemma wake_worker_idem w : wake_worker (wake_worker w) = wake_worker w.
Proof. destruct w as [id lt []]; reflexivity. Qed.
Lemma wake_call_idem c : wake_call (wake_call c) = wake_call c.
Proof. destruct c as [t []]; reflexivity. Qed.
Lemma wake_main_idem m : wake_main (wake_main m) = wake_main m.
Proof. destruct m; reflexivity. Qed.

Lemma deliver_workers evs s i w' :
  workers (deliver evs s) !! i = Some w' ->
  exists w, workers s !! i = Some w /\ woken_worker w w'.
Proof.
  unfold deliver. revert s w'. induction evs as [| e evs IH]; intros s w' H; simpl in H.
  - exists w'. split; [assumption | left; reflexivity].
  - apply IH in H as (w1 & H1 & Hw).
    destruct e as [| | [] | | |]; simpl in H1; try (exists w1; split; assumption).
    rewrite list_lookup_fmap in H1.
    destruct (workers s !! i) as [w0 |] eqn:E; simpl in H1; [| discriminate].
    injection H1 as <-. exists w0. split; [reflexivity |].
    destruct Hw as [-> | ->]; right; [reflexivity | apply wake_worker_idem].
Qed.

Lemma deliver_calls evs s i c' :
  calls (deliver evs s) !! i = Some c' ->
  exists c, calls s !! i = Some c /\ woken_call c c'.
Proof.
  unfold deliver. revert s c'. induction evs as [| e evs IH]; intros s c' H; simpl in H.
  - exists c'. split; [assumption | left; reflexivity].
  - apply IH in H as (c1 & H1 & Hw).
    destruct e as [| | [] | | |]; simpl in H1; try (exists c1; split; assumption).
    rewrite list_lookup_fmap in H1.
    destruct (calls s !! i) as [c0 |] eqn:E; simpl in H1; [| discriminate].
    injection H1 as <-. exists c0. split; [reflexivity |].
    destruct Hw as [-> | ->]; right; [reflexivity | apply wake_call_idem].
Qed.

Lemma deliver_calls_done evs : forall s i c,
  calls s !! i = Some c -> call_done c = true ->
  calls (deliver evs s) !! i = Some c.
Proof.
  unfold deliver. induction evs as [| e evs IH]; intros s i c Hc Hd; simpl; [assumption |].
  apply IH; [| assumption].
  destruct e as [| | [] | | |]; simpl; try assumption.
  rewrite list_lookup_fmap, Hc. simpl. f_equal.
  destruct c as [t []]; simpl in *; try discriminate. reflexivity.
Qed.

Lemma deliver_main evs s : woken_main (main s) (main (deliver evs s)).
Proof.
  unfold deliver. revert s. induction evs as [| e evs IH]; intros s; simpl.
  - left; reflexivity.
  - specialize (IH (deliver1 s e)).
    destruct e as [| | [] | | |]; simpl in *; try exact IH.
    unfold woken_main in *.
    destruct IH as [H | H]; right; rewrite H; [reflexivity | apply wake_main_idem].
Qed.

(** *** Proof automation shared by the invariants *)

(** Case analysis on a successful [step]. *)
Ltac step_cases H :=
  unfold step, step_main, step_call, step_worker in H;
  repeat match type of H with
         | context [match ?x with _ => _ end] => destruct x eqn:?; try discriminate H
         | context [if ?x then _ else _] => destruct x eqn:?; try discriminate H
         end;
  try (injection H as <- <-).

Lemma spawned_lookup (ws : list Worker) ids j w :
  (ws ++ map (fun id => mkWorker id 0 WStart) ids) !! j = Some w ->
  ws !! j = Some w \/ (w_pc w = WStart /\ (length ws <= j)%nat).
Proof.
  intros H. apply lookup_app_Some in H as [H | [Hle H]]; [left; assumption | right].
  split; [| assumption].
  apply list_elem_of_lookup_2 in H. apply list_elem_of_In, in_map_iff in H as (id & <- & _).
  reflexivity.
Qed.

Lemma wake_worker_pc w :
  w_pc (wake_worker w) = w_pc w \/
  exists d, w_pc w = WBlocked d /\ w_pc (wake_worker w) = WReady d.
Proof. destruct w as [id lt []]; simpl; eauto. Qed.

Lemma wake_call_pc c :
  c_pc (wake_call c) = c_pc c \/
  exists d, c_pc c = CBlocked d /\ c_pc (wake_call c) = CReady d.
Proof. destruct c as [t []]; simpl; eauto. Qed.

Ltac unfold_state :=
  cbn [pool generatedId_ taskQueMtx_ main calls workers tasks results now terminated
       put_worker put_call spawn with_pool with_mtx with_main with_calls
       with_workers with_heap with_generatedId with_now with_terminated
       set_wpc set_cpc w_pc c_pc w_threadId w_lastTime c_task notify_all] in *.

Ltac norm_lookup :=
  repeat match goal with
    | H : workers (deliver _ _) !! _ = Some _ |- _ =>
        let Hw := fresh "Hw" in
        apply deliver_workers in H as (? & H & Hw); unfold_state
    | H : calls (deliver _ _) !! _ = Some _ |- _ =>
        let Hw := fresh "Hw" in
        apply deliver_calls in H as (? & H & Hw); unfold_state
    | H : (_ ++ map _ _) !! _ = Some _ |- _ =>
        apply spawned_lookup in H as [H | [? ?]]
    | H : (_ ++ [_]) !! _ = Some _ |- _ =>
        apply lookup_app_Some in H as [H | [? H]];
        [| apply list_lookup_singleton_Some in H as [? <-]]
    | H : (<[_ := _]> _) !! _ = Some _ |- _ =>
        apply list_lookup_insert_Some in H as [(<- & <- & ?) | (? & H)]
    | H : (_ <$> _) !! _ = Some _ |- _ =>
        apply list_lookup_fmap_Some in H as (? & -> & H)
    | H : woken_worker _ _ |- _ => destruct H as [-> | ->]
    | H : woken_call _ _ |- _ => destruct H as [-> | ->]
    end.

Ltac rewrite_pcs :=
  repeat match goal with
    | H : w_pc _ = _ |- _ => rewrite H in *; clear H
    | H : c_pc _ = _ |- _ => rewrite H in *; clear H
    | H : main _ = _ |- _ => rewrite H in *; clear H
    end.


End SchedFacts.

(** ** The mutex *)

Module MutexInv.
Import Cxx Channel Pool Sched SchedFacts Props Runs CxxFacts.

Lemma wake_worker_holds w : w_holds (w_pc (wake_worker w)) = w_holds (w_pc w).
Proof. destruct w as [id lt []]; reflexivity. Qed.

Lemma wake_call_holds c : c_holds (c_pc (wake_call c)) = c_holds (c_pc c).
Proof. destruct c as [t []]; reflexivity. Qed.

Lemma wake_main_holds m : m_holds (wake_main m) = m_holds m.
Proof. destruct m; reflexivity. Qed.

Ltac saturate HW HC :=
  repeat match goal with
    | Hx : workers _ !! ?j = Some ?w |- _ =>
        let Hn := fresh "Hsat" in
        pose proof (HW j w Hx) as Hn; revert Hx
    | Hx : calls _ !! ?j = Some ?c |- _ =>
        let Hn := fresh "Hsat" in
        pose proof (HC j c Hx) as Hn; revert Hx
    end;
  intros; rewrite_pcs; cbn [w_holds c_holds m_holds] in *;
  repeat match goal with
    | H : true = true -> _ |- _ => specialize (H eq_refl)
    | H : ?a = true -> _, H' : ?a = true |- _ => specialize (H H')
    end.

Lemma mutex_inv_step a s s' evs : mutex_inv s -> step a s = Some (s', evs) -> mutex_inv s'.
Proof.
  intros [HW HC HM] H. step_cases H.
  all: unfold mtx_free in *; destruct (taskQueMtx_ s) as [owner|] eqn:Hmtx; try discriminate.
  all: constructor; 
    [ intros j w' Hl Hh | intros j c' Hl Hh | intros Hh ];
    try rewrite deliver_mtx;
    try match goal with Hm : m_holds (main (deliver ?l ?s0)) = true |- _ =>
          destruct (deliver_main l s0) as [Hdm | Hdm]; rewrite Hdm in Hm;
          try rewrite wake_main_holds in Hm end;
    unfold_state; norm_lookup; unfold_state;
    try rewrite wake_worker_holds in *; try rewrite wake_call_holds in *;
    saturate HW HC; try discriminate; try congruence; try (simplify_eq; fail).
Qed.

Lemma mutex_inv_init : mutex_inv init.
Proof. constructor; simpl; intros; try discriminate. all: rewrite lookup_nil in *; discriminate. Qed.

Lemma mutex_inv_reachable s : reachable s -> mutex_inv s.
Proof. apply reachable_invariant; [apply mutex_inv_init | apply mutex_inv_step]. Qed.


End MutexInv.

(** ** What the member functions do to the pool *)

Module PoolFacts.
Import Cxx Channel Pool Props Runs CxxFacts.

Lemma Thread_ctor_spec g th g' :
  Thread_ctor g = Some (th, g') -> th = mkThread g /\ g' = g + 1 /\ g < INT_MAX.
Proof.
  unfold Thread_ctor. destruct (g <? INT_MAX) eqn:E; [| discriminate].
  intros [= <- <-]. apply Z.ltb_lt in E. auto.
Qed.

Lemma emplace_fresh k t (m : gmap Z Thread) :
  m !! k = None -> emplace k t m = <[k := t]> m.
Proof. unfold emplace. intros ->. reflexivity. Qed.

Lemma size_delete_le k (m : gmap Z Thread) :
  (size m <= S (size (delete k m)))%nat /\ (size (delete k m) <= size m)%nat.
Proof.
  rewrite map_size_delete. destruct (m !! k); simpl; lia.
Qed.

Lemma keys_below_delete k ths g : keys_below ths g -> keys_below (delete k ths) g.
Proof.
  intros H j Hj. apply H. destruct Hj as [t Ht].
  apply lookup_delete_Some in Ht as [_ Ht]. eauto.
Qed.

Lemma create_threads_spec k : forall ths g ths' g',
  create_threads k ths g = Some (ths', g') ->
  keys_below ths g ->
  g' = g + Z.of_nat k /\ keys_below ths' g' /\ size ths' = (size ths + k)%nat.
Proof.
  induction k as [| k IH]; intros ths g ths' g' H Hk; simpl in H.
  - injection H as <- <-. split; [lia |]. split; [assumption | lia].
  - destruct (Thread_ctor g) as [[ptr g1] |] eqn:E; [| discriminate].
    apply Thread_ctor_spec in E as (-> & -> & Hlt). simpl in H.
    assert (Hnone : ths !! g = None).
    { destruct (ths !! g) eqn:E; [| reflexivity].
      specialize (Hk g (mk_is_Some _ _ E)). lia. }
    rewrite emplace_fresh in H by assumption.
    apply IH in H as (-> & Hk' & Hsz).
    + split; [lia |]. split; [assumption |].
      rewrite Hsz, map_size_insert_None by assumption. lia.
    + intros j [t Ht]. apply lookup_insert_Some in Ht as [[<- _] | [_ Ht]]; [lia |].
      specialize (Hk j (mk_is_Some _ _ Ht)). lia.
Qed.

Lemma start_threads_spec k : forall i p p' ids,
  start_threads k i p = Some (p', ids) -> same_but_idle p p'.
Proof.
  induction k as [| k IH]; intros i p p' ids H; simpl in H.
  - injection H as <- <-. repeat split.
  - destruct (threads_ p !! i); [| discriminate].
    destruct (start_threads k (i + 1) _) as [[p1 ids1] |] eqn:E; [| discriminate].
    injection H as <- <-. apply IH in E. exact E.
Qed.

Lemma start_spec n p g p' g' ids evs :
  start n p g = Some (p', g', ids, evs) ->
  0 <= n <= INT_MAX /\
  isPoolRunning_ p' = true /\
  initThreadSize_ p' = n /\
  curThreadSize_ p' = n /\
  threadSizeThreshold_ p' = threadSizeThreshold_ p /\
  taskQue_ p' = taskQue_ p /\
  poolMode_ p' = poolMode_ p /\
  evs = map EvStartThread ids /\
  (keys_below (threads_ p) g ->
   keys_below (threads_ p') g' /\
   size (threads_ p') = (size (threads_ p) + Z.to_nat n)%nat).
Proof.
  unfold start. destruct ((0 <=? n) && (n <=? INT_MAX)) eqn:Hn; [| discriminate].
  apply andb_true_iff in Hn as [H0 H1]. apply Z.leb_le in H0, H1.
  destruct (create_threads _ _ _) as [[ths g1] |] eqn:Ec; [| discriminate].
  destruct (start_threads _ _ _) as [[p2 ids2] |] eqn:Es; [| discriminate].
  intros [= <- <- <- <-].
  apply start_threads_spec in Es as (Ht & Hi & Hc & Hth & Hq & _ & _ & Hm & Hr).
  simpl in *. rewrite Hr, Hi, Hc, Hth, Hq, Hm, Ht.
  rewrite to_size_t_small by lia.
  repeat (split; [first [reflexivity | lia] |]).
  intros Hk. apply create_threads_spec in Ec as (_ & Hk' & Hsz); [| assumption].
  split; assumption.
Qed.

(** The two ways [submit_accept] can go. *)
Lemma submit_accept_spec task p g p' g' ids evs :
  submit_accept task p g = Some (p', g', ids, evs) ->
  taskQue_ p' = taskQue_ p ++ [task] /\
  isPoolRunning_ p' = isPoolRunning_ p /\
  initThreadSize_ p' = initThreadSize_ p /\
  threadSizeThreshold_ p' = threadSizeThreshold_ p /\
  poolMode_ p' = poolMode_ p /\
  ((threads_ p' = threads_ p /\ curThreadSize_ p' = curThreadSize_ p /\
    g' = g /\ ids = [] /\ evs = [EvEnqueue task; EvNotifyAll notEmpty_])
   \/
   (poolMode_ p = MODE_CACHED /\
    to_size_t (curThreadSize_ p) < threadSizeThreshold_ p /\
    g < INT_MAX /\ g' = g + 1 /\
    threads_ p' = emplace g (mkThread g) (threads_ p) /\
    curThreadSize_ p' = wrap_int (curThreadSize_ p + 1) /\
    exists id, ids = [id] /\
      evs = [EvEnqueue task; EvNotifyAll notEmpty_; EvStartThread id])).
Proof.
  unfold submit_accept.
  destruct (needs_new_thread _) eqn:Hn.
  - destruct (Thread_ctor g) as [[ptr g1] |] eqn:E; [| discriminate].
    apply Thread_ctor_spec in E as (-> & -> & Hlt).
    cbn [threadId_ threads_ with_threads with_taskSize with_que].
    unfold needs_new_thread in Hn. simpl in Hn.
    destruct (poolMode_ p) eqn:Hm; [discriminate |].
    apply andb_true_iff in Hn as [_ Hc]. apply Z.ltb_lt in Hc.
    destruct (emplace g (mkThread g) (threads_ p) !! g) as [th |] eqn:El; [| discriminate].
    intros [= <- <- <- <-]. simpl.
    repeat (split; [first [reflexivity | assumption] |]).
    right.
    repeat (split; [first [reflexivity | assumption] |]).
    exists (threadId_ th). split; reflexivity.
  - intros [= <- <- <- <-]. simpl.
    repeat (split; [reflexivity |]). left. repeat split.
Qed.

Lemma take_task_spec p task p' evs :
  take_task p = Some (task, p', evs) ->
  exists rest,
    taskQue_ p = task :: rest /\ taskQue_ p' = rest /\
    threads_ p' = threads_ p /\
    isPoolRunning_ p' = isPoolRunning_ p /\
    initThreadSize_ p' = initThreadSize_ p /\
    curThreadSize_ p' = curThreadSize_ p /\
    threadSizeThreshold_ p' = threadSizeThreshold_ p /\
    poolMode_ p' = poolMode_ p /\
    evs = EvDequeue task
          :: (match rest with [] => [] | _ :: _ => [EvNotifyAll notEmpty_] end)
          ++ [EvNotifyAll notFull_].
Proof.
  unfold take_task. destruct (taskQue_ p) as [| t rest] eqn:E; [discriminate |].
  intros [= <- <- <-]. exists rest. simpl. repeat split.
Qed.

Lemma take_task_none p : take_task p = None -> taskQue_ p = [].
Proof. unfold take_task. destruct (taskQue_ p); [reflexivity | discriminate]. Qed.

Lemma setMode_cases m p : configured p (setMode m p).
Proof.
  unfold setMode, checkRunningState, configured.
  destruct (isPoolRunning_ p) eqn:E; [left; reflexivity | right].
  simpl. repeat split; assumption.
Qed.

Lemma setTaskQueMaxThreshold_cases n p : configured p (setTaskQueMaxThreshold n p).
Proof.
  unfold setTaskQueMaxThreshold, checkRunningState, configured.
  destruct (isPoolRunning_ p) eqn:E; [left; reflexivity | right].
  simpl. repeat split; assumption.
Qed.

Lemma setThreadSizeThreshold_cases n p : configured p (setThreadSizeThreshold n p).
Proof.
  unfold setThreadSizeThreshold, checkRunningState, configured.
  destruct (isPoolRunning_ p) eqn:E; [left; reflexivity |].
  destruct (poolMode_ p); [left; reflexivity | right].
  simpl. repeat split; assumption.
Qed.

Lemma emplace_lookup k t (m : gmap Z Thread) : is_Some (emplace k t m !! k).
Proof.
  unfold emplace. destruct (m !! k) eqn:E.
  - rewrite E. eauto.
  - rewrite lookup_insert_eq. eauto.
Qed.

Lemma keys_below_emplace g t ths :
  keys_below ths g -> keys_below (emplace g t ths) (g + 1).
Proof.
  intros H k [x Hx]. unfold emplace in Hx.
  destruct (ths !! g) eqn:E.
  - specialize (H k (mk_is_Some _ _ Hx)). lia.
  - apply lookup_insert_Some in Hx as [[<- _] | [_ Hx]]; [lia |].
    specialize (H k (mk_is_Some _ _ Hx)). lia.
Qed.

Lemma size_emplace_fresh g t ths :
  keys_below ths g -> size (emplace g t ths) = S (size ths).
Proof.
  intros H. assert (ths !! g = None) as Hn.
  { destruct (ths !! g) eqn:E; [| reflexivity].
    specialize (H g (mk_is_Some _ _ E)). lia. }
  rewrite emplace_fresh by assumption. apply map_size_insert_None. assumption.
Qed.


End PoolFacts.

(** ** The counters and the registry *)

Module PoolInv.
Import Cxx Channel Pool Sched SchedFacts PoolFacts Props Runs CxxFacts.

Lemma deliver_generatedId evs s : generatedId_ (deliver evs s) = generatedId_ s.
Proof. apply deliver_misc. Qed.

Lemma deliver_main_user evs s : main (deliver evs s) = MUser <-> main s = MUser.
Proof.
  destruct (deliver_main evs s) as [-> | ->]; [reflexivity |].
  destruct (main s); simpl; split; congruence.
Qed.

Ltac pool_specs :=
  repeat match goal with
    | H : start _ _ _ = Some _ |- _ =>
        apply start_spec in H as (? & ? & ? & ? & ? & ? & ? & ? & ?)
    | H : submit_accept _ _ _ = Some _ |- _ =>
        apply submit_accept_spec in H
            as (? & ? & ? & ? & ? &
                [(? & ? & ? & ? & ?) | (? & ? & ? & ? & ? & ? & ? & ? & ?)])
    | H : take_task _ = Some _ |- _ =>
        apply take_task_spec in H as (? & ? & ? & ? & ? & ? & ? & ? & ? & ?)
    | H : take_task _ = None |- _ => apply take_task_none in H
    | H : exit_on_shutdown _ _ = (_, _) |- _ =>
        unfold exit_on_shutdown in H; injection H as <- <-
    | H : retire _ _ = (_, _) |- _ =>
        unfold retire in H; injection H as <- <-
    end.

Ltac setter_cases :=
  match goal with
  | |- context [setMode ?m ?p] =>
      destruct (setMode_cases m p) as [-> | (? & ? & ? & ? & ? & ?)]
  | |- context [setTaskQueMaxThreshold ?n ?p] =>
      destruct (setTaskQueMaxThreshold_cases n p) as [-> | (? & ? & ? & ? & ? & ?)]
  | |- context [setThreadSizeThreshold ?n ?p] =>
      destruct (setThreadSizeThreshold_cases n p) as [-> | (? & ? & ? & ? & ? & ?)]
  end.

Ltac pool_fields :=
  cbn [threads_ initThreadSize_ idleThreadSize_ curThreadSize_ threadSizeThreshold_
       taskQue_ taskSize_ taskQueMaxThreshold_ poolMode_ isPoolRunning_
       with_threads with_init with_idle with_cur with_threshold with_que
       with_taskSize with_queMax with_mode with_running] in *.

Lemma pool_inv_step a s s' evs : pool_inv s -> step a s = Some (s', evs) -> pool_inv s'.
Proof.
  intros [HK HR HC] H. step_cases H.
  all: pool_specs.
  all: constructor; unfold_state; rewrite ?deliver_pool, ?deliver_generatedId,
         ?deliver_main_user; unfold_state.
  all: try assumption.
  all: try setter_cases; try assumption; try congruence.
  all: pool_fields.
  all: try match goal with
         | |- keys_below _ _ => 
             first [ apply keys_below_delete; assumption
                   | match goal with Hs : keys_below _ _ -> _ |- _ => apply Hs; assumption end
                   | match goal with He : threads_ ?t = emplace _ _ _ |- _ => rewrite He; subst; apply keys_below_emplace; assumption end
                   | match goal with He : threads_ ?t = threads_ _ |- _ => rewrite He; subst; assumption end ]
         | |- _ = true -> _ = MUser =>
             first [ discriminate
                   | match goal with He : isPoolRunning_ ?t = isPoolRunning_ _ |- _ => rewrite He; intros Hx; specialize (HR Hx); congruence end
                   | intros Hx; specialize (HR Hx); congruence 
                   | reflexivity ]
         end.
  - (* start *)
    intros _ Ht. destruct (H7 HK) as [_ Hsz]. unfold counters_ok.
    rewrite H1, H2, Hsz. lia.
  - discriminate.
  - (* submitTask, no new thread *)
    intros Hr Ht. unfold counters_ok in *.
    rewrite H0 in Hr. rewrite H2 in Ht. specialize (HC Hr Ht).
    rewrite H1, H2, H4, H5. exact HC.
  - (* submitTask, one more thread *)
    intros Hr Ht. unfold counters_ok in *.
    rewrite H0 in Hr. rewrite H2 in Ht. specialize (HC Hr Ht).
    rewrite H1, H2, H8, H9, size_emplace_fresh by assumption.
    rewrite to_size_t_small in H5 by lia.
    rewrite wrap_int_small by (unfold INT_MAX in *; lia). lia.
  - (* a task is taken *)
    intros Hr Ht. unfold counters_ok in *.
    rewrite H2 in Hr. rewrite H5 in Ht. specialize (HC Hr Ht).
    rewrite H1, H3, H4, H5. exact HC.
  - (* exit on shutdown: the pool is not running *)
    intros Hr. rewrite Hr in *. discriminate.
  - (* idle retirement *)
    intros Hr Ht. specialize (HC Hr Ht). unfold counters_ok in *. pool_fields.
    match goal with Hb : _ && surplus _ = true |- _ =>
      apply andb_true_iff in Hb as [_ Hs] end.
    unfold surplus in Hs. apply Z.ltb_lt in Hs.
    rewrite to_size_t_small in Hs by lia.
    rewrite wrap_int_small by (unfold INT_MAX in *; lia).
    pose proof (size_delete_le (w_threadId w) (threads_ (pool s))). lia.
Qed.

Lemma pool_inv_init : pool_inv init.
Proof.
  constructor; simpl; try discriminate.
  intros k [x Hx]. rewrite lookup_empty in Hx. discriminate.
Qed.

Lemma pool_inv_reachable s : reachable s -> pool_inv s.
Proof. apply reachable_invariant; [apply pool_inv_init | apply pool_inv_step]. Qed.


End PoolInv.

(** ** The queue while workers check it, and during shutdown *)

Module DrainInv.
Import Cxx Channel Pool Sched SchedFacts PoolFacts MutexInv PoolInv Props Runs CxxFacts.

Lemma wake_call_done c : call_done (wake_call c) = call_done c.
Proof. destruct c as [t []]; reflexivity. Qed.

Lemma wake_worker_sees_empty w : sees_empty (w_pc (wake_worker w)) = sees_empty (w_pc w).
Proof. destruct w as [id lt []]; reflexivity. Qed.

Lemma deliver_main_done evs s : main (deliver evs s) = MDone <-> main s = MDone.
Proof.
  destruct (deliver_main evs s) as [-> | ->]; [reflexivity |].
  destruct (main s); simpl; split; congruence.
Qed.

Lemma drain_inv_step a s s' evs :
  mutex_inv s -> drain_inv s -> step a s = Some (s', evs) -> drain_inv s'.
Proof.
  intros [HW HC HM] [HE HD HN] H. step_cases H.
  all: pool_specs.
  all: unfold mtx_free in *; destruct (taskQueMtx_ s) as [owner|] eqn:Hmtx; try discriminate.
  all: constructor;
    [ intros j w' Hl Hh | intros Hm j c' Hl | intros Hm ];
    rewrite ?deliver_pool in *; rewrite ?deliver_main_user, ?deliver_main_done in *;
    unfold_state; norm_lookup; unfold_state;
    rewrite ?wake_worker_sees_empty, ?wake_call_done in *.
  all: try setter_cases.
  all: try solve [ eapply HE; eassumption
                 | eapply HD; [congruence | eassumption]
                 | apply HN; congruence
                 | exfalso; congruence
                 | reflexivity
                 | match goal with He : taskQue_ ?t = _ |- taskQue_ ?t = _ => rewrite He; eapply HE; eassumption end
                 | saturate HW HC; cbn [sees_empty] in *; try discriminate; congruence ].
  all: try match goal with
         | Hh : sees_empty (w_pc ?x) = true |- _ =>
             assert (w_holds (w_pc x) = true)
               by (destruct (w_pc x); try discriminate Hh; reflexivity)
         end.
  all: try match goal with
         | Hc : calls _ !! ?i = Some ?c, Hp : c_pc ?c = _, Hm : main _ <> MUser |- _ =>
             exfalso; pose proof (HD Hm _ _ Hc) as Hdone;
             unfold call_done in Hdone; rewrite Hp in Hdone; discriminate
         | Hc : calls _ !! ?i = Some ?c, Hp : c_pc ?c = _, Hm : main _ = MDone |- _ =>
             exfalso; assert (main s <> MUser) as Hne by congruence;
             pose proof (HD Hne _ _ Hc) as Hdone;
             unfold call_done in Hdone; rewrite Hp in Hdone; discriminate
         end.
  all: try solve [ saturate HW HC; cbn [sees_empty] in *; try discriminate; congruence
                 | assumption ].
  all: try match goal with
         | |- size (threads_ ?t) = 0%nat =>
             pool_fields;
             first [ match goal with He : threads_ t = _ |- _ => rewrite He; apply HN; assumption end
                   | pose proof (size_delete_le (w_threadId w) (threads_ (pool s)));
                     specialize (HN Hm); lia ]
         end.
  all: try match goal with
         | Hf : forallb call_done _ = true, Hl : _ !! _ = Some ?c |- call_done ?c = true =>
             rewrite forallb_forall in Hf; apply Hf;
             apply list_elem_of_In; eapply list_elem_of_lookup_2; exact Hl
         end.

  - unfold registry_empty in *. apply Nat.eqb_eq. assumption.
  - eapply HE; [exact Heqo |]. rewrite Heqw0. reflexivity.
Qed.

Lemma drain_inv_init : drain_inv init.
Proof.
  constructor; simpl; congruence.
Qed.

Lemma all_inv_step a s s' evs : all_inv s -> step a s = Some (s', evs) -> all_inv s'.
Proof.
  intros [Hm Hp Hd] H. constructor.
  - eapply mutex_inv_step; eassumption.
  - eapply pool_inv_step; eassumption.
  - eapply drain_inv_step; eassumption.
Qed.

Lemma all_inv_reachable s : reachable s -> all_inv s.
Proof.
  apply reachable_invariant; [| apply all_inv_step].
  constructor; [apply mutex_inv_init | apply pool_inv_init | apply drain_inv_init].
Qed.

(** *** Draining during shutdown *)




End DrainInv.

(** ** No wake-up is lost at shutdown *)

Module WakeInv.
Import Cxx Channel Pool Sched SchedFacts PoolFacts MutexInv PoolInv DrainInv Props Runs CxxFacts.

Lemma wake_worker_commits w :
  commits_to_wait (w_pc (wake_worker w)) = true -> w_pc w = WRunning.
Proof. destruct w as [id lt []]; simpl; congruence. Qed.

Lemma deliver_broadcast_pending evs s :
  broadcast_pending (main (deliver evs s)) = broadcast_pending (main s).
Proof.
  destruct (deliver_main evs s) as [-> | ->]; [reflexivity |].
  destruct (main s); reflexivity.
Qed.

Lemma no_lost_wakeup_step a s s' evs :
  mutex_inv s -> no_lost_wakeup s ->
  step a s = Some (s', evs) -> no_lost_wakeup s'.
Proof.
  intros [HW HC HM] HN H. unfold no_lost_wakeup in *. step_cases H.
  all: pool_specs.
  all: intros Hrun j w' Hl Hh;
    rewrite ?deliver_pool, ?deliver_broadcast_pending in *;
    unfold_state; norm_lookup; unfold_state.
  all: try reflexivity.
  all: try setter_cases.
  all: pool_fields.
  all: try match goal with
         | Hw : commits_to_wait (w_pc (wake_worker ?x)) = true |- _ =>
             apply wake_worker_commits in Hw
         end.
  all: try match goal with
         | He : isPoolRunning_ ?t = isPoolRunning_ _, Hr : isPoolRunning_ ?t = false |- _ =>
             rewrite He in Hr
         end.
  all: try match goal with
         | Hl : workers _ !! ?j = Some ?x, Hp : w_pc ?x = WRunning |- _ =>
             let Hn := fresh in
             assert (commits_to_wait (w_pc x) = true) as Hn by (rewrite Hp; reflexivity);
             pose proof (HN Hrun _ _ Hl Hn)
         | Hl : workers _ !! ?j = Some ?x, Hc : commits_to_wait (w_pc ?x) = true |- _ =>
             pose proof (HN Hrun _ _ Hl Hc)
         end.
  all: try solve [ assumption | discriminate | congruence
                 | rewrite_pcs; cbn [commits_to_wait broadcast_pending] in *; congruence ].
  - assert (isPoolRunning_ (pool s) = false) as Hr0.
    { destruct (setMode_cases mode (pool s)) as [Hq | (? & _)];
        [rewrite Hq in Hrun; exact Hrun | assumption]. }
    rewrite Heqm. exact (HN Hr0 _ _ Hl Hh).
  - assert (isPoolRunning_ (pool s) = false) as Hr0.
    { destruct (setTaskQueMaxThreshold_cases threshold (pool s)) as [Hq | (? & _)];
        [rewrite Hq in Hrun; exact Hrun | assumption]. }
    rewrite Heqm. exact (HN Hr0 _ _ Hl Hh).
  - assert (isPoolRunning_ (pool s) = false) as Hr0.
    { destruct (setThreadSizeThreshold_cases threshold (pool s)) as [Hq | (? & _)];
        [rewrite Hq in Hrun; exact Hrun | assumption]. }
    rewrite Heqm. exact (HN Hr0 _ _ Hl Hh).
  - (* the broadcast: whoever had read the flag holds the mutex, but the
       destructor holds it *)
    exfalso. specialize (HM eq_refl).
    assert (w_holds (w_pc x) = true) as Hx by (rewrite Hh; reflexivity).
    specialize (HW _ _ Hl Hx). congruence.
  - (* the flag was read as true *)
    rewrite Hrun in Heqb0. discriminate.
Qed.

Lemma no_lost_wakeup_reachable s : reachable s -> no_lost_wakeup s.
Proof.
  intros Hr.
  enough (mutex_inv s /\ no_lost_wakeup s) as [_ H] by exact H.
  revert s Hr. apply reachable_invariant.
  - split; [apply mutex_inv_init |]. intros _ i w Hl. simpl in Hl.
    rewrite lookup_nil in Hl. discriminate.
  - intros a s s' evs [Hm Hn] H. split.
    + eapply mutex_inv_step; eassumption.
    + eapply no_lost_wakeup_step; eassumption.
Qed.


End WakeInv.

(** ** The order of the queue *)

Module Fifo.
Import Cxx Channel Pool Sched SchedFacts PoolFacts PoolInv Props Runs CxxFacts.

Lemma accepted_app e1 e2 : accepted (e1 ++ e2) = accepted e1 ++ accepted e2.
Proof.
  induction e1 as [| e e1 IH]; [reflexivity |].
  destruct e; simpl; rewrite IH; reflexivity.
Qed.

Lemma dequeued_app e1 e2 : dequeued (e1 ++ e2) = dequeued e1 ++ dequeued e2.
Proof.
  induction e1 as [| e e1 IH]; [reflexivity |].
  destruct e; simpl; rewrite IH; reflexivity.
Qed.

Lemma accepted_started ids : accepted (map EvStartThread ids) = [].
Proof. induction ids; [reflexivity | assumption]. Qed.

Lemma dequeued_started ids : dequeued (map EvStartThread ids) = [].
Proof. induction ids; [reflexivity | assumption]. Qed.

(** One step: what was in the queue plus what the step accepted is what
    the step took plus what is in the queue now. *)
Lemma fifo_step a s s' evs :
  step a s = Some (s', evs) ->
  taskQue_ (pool s) ++ accepted evs = dequeued evs ++ taskQue_ (pool s').
Proof.
  intros H. step_cases H.
  all: pool_specs.
  all: rewrite ?deliver_pool; unfold_state; pool_fields.
  all: try setter_cases.
  all: subst; rewrite ?accepted_started, ?dequeued_started; cbn [accepted dequeued app];
       rewrite ?app_nil_r; try reflexivity; try congruence.
  rewrite H. destruct (taskQue_ t0); simpl; rewrite ?app_nil_r; reflexivity.
Qed.

Lemma fifo_run acts : forall s s' evs,
  run_all acts s = Some (s', evs) ->
  taskQue_ (pool s) ++ accepted evs = dequeued evs ++ taskQue_ (pool s').
Proof.
  induction acts as [| a acts IH]; intros s s' evs Hrun; simpl in Hrun.
  - injection Hrun as <- <-. simpl. apply app_nil_r.
  - destruct (step a s) as [[s1 e1] |] eqn:E; [| discriminate].
    destruct (run_all acts s1) as [[s2 e2] |] eqn:E2; [| discriminate].
    injection Hrun as <- <-.
    rewrite accepted_app, dequeued_app, app_assoc, (fifo_step _ _ _ _ E).
    rewrite <- !app_assoc. f_equal. apply IH. exact E2.
Qed.


End Fifo.

(** ** Tasks taken and tasks run; threads alive and threads registered *)

Module ExecInv.
Import Cxx Channel Pool Sched Props Runs CxxFacts SchedFacts PoolFacts MutexInv PoolInv DrainInv Fifo.


Lemma bind_woken {X} (f : Worker -> list X) (ws : list Worker) :
  (forall w, f (wake_worker w) = f w) -> (wake_worker <$> ws) ≫= f = ws ≫= f.
Proof.
  intros Hf. induction ws as [| w ws IH]; [reflexivity |].
  rewrite fmap_cons, !bind_cons, IH, Hf. reflexivity.
Qed.


Lemma live_id_woken w : live_id (wake_worker w) = live_id w.
Proof. destruct w as [id lt []]; reflexivity. Qed.

Lemma bind_deliver {X} (f : Worker -> list X) evs :
  (forall w, f (wake_worker w) = f w) ->
  forall s, workers (deliver evs s) ≫= f = workers s ≫= f.
Proof.
  intros Hf. unfold deliver. induction evs as [| e evs IH]; intros s; simpl; [reflexivity |].
  rewrite IH. destruct e as [| | [] | | |]; simpl; try reflexivity.
  apply bind_woken, Hf.
Qed.


Lemma live_ids_deliver evs s : live_ids (deliver evs s) = live_ids s.
Proof. apply bind_deliver, live_id_woken. Qed.







(** *** A pool that is started before anything else *)


Lemma deliver_workers_length evs s :
  length (workers (deliver evs s)) = length (workers s).
Proof.
  unfold deliver. revert s. induction evs as [| e evs IH]; intros s; simpl; [reflexivity |].
  rewrite IH. destruct e as [| | [] | | |]; simpl; try reflexivity. apply length_fmap.
Qed.





Lemma create_threads_from k : forall ths g ths' g',
  create_threads k ths g = Some (ths', g') ->
  (forall j, g <= j -> ths !! j = None) ->
  g' = g + Z.of_nat k /\
  forall j, ths' !! j =
            if decide (g <= j < g + Z.of_nat k) then Some (mkThread j) else ths !! j.
Proof.
  induction k as [| k IH]; intros ths g ths' g' H Hfree; simpl in H.
  - injection H as <- <-. split; [lia |]. intros j.
    destruct (decide _); [lia | reflexivity].
  - destruct (Thread_ctor g) as [[ptr g1] |] eqn:E; [| discriminate].
    apply Thread_ctor_spec in E as (-> & -> & _). cbn [threadId_] in H.
    rewrite emplace_fresh in H by (apply Hfree; lia).
    apply IH in H as [-> Hl].
    + split; [lia |]. intros j. rewrite Hl.
      destruct (decide (g + 1 <= j < g + 1 + Z.of_nat k));
        destruct (decide (g <= j < g + Z.of_nat (S k))); try lia; try reflexivity.
      * destruct (decide (j = g)) as [-> | Hne].
        -- rewrite lookup_insert_eq. reflexivity.
        -- lia.
      * rewrite lookup_insert_ne by lia. reflexivity.
    + intros j Hj. rewrite lookup_insert_ne by lia. apply Hfree. lia.
Qed.



End ExecInv.

(** ** When [cast_] returns *)

Module AnyCast.
Section Generic.
Context {Ty : Type} `{EqDecision Ty} (den : Ty -> Type).
Import AnyModel.

(** [cast_<T>] returns a value exactly when the container holds this value
    under the very type [T].  Whenever it throws, it throws the string of
    the source, and the container holds no value of type [T]: it holds a
    value of another type or nothing at all, as a default-constructed or a
    moved-from [Any] does. *)
Theorem cast_returns_iff (T : Ty) (a : Any den) :
  (forall v, cast_ den T a = Ret v <-> base_ den a = Some (existT T v)) /\
  (forall what, cast_ den T a = Throw what ->
     what = "type is unmatch!"%string /\ forall v, base_ den a <> Some (existT T v)).
Proof.
  unfold cast_. destruct a as [[[U d] |]]; cbn [base_].
  - destruct (decide (U = T)) as [e | n].
    + subst U. cbn. split.
      * intros v. split.
        -- intros [= <-]. reflexivity.
        -- intros [= Hv]. f_equal.
           apply (Eqdep_dec.inj_pair2_eq_dec _ (fun x y => decide (x = y))) in Hv.
           exact Hv.
      * intros what H. discriminate.
    + split.
      * intros v. split; [discriminate |]. intros [= Hu _]. contradiction.
      * intros what [= <-]. split; [reflexivity |]. intros v [= Hu _]. contradiction.
  - split.
    + intros v. split; discriminate.
    + intros what [= <-]. split; [reflexivity |]. intros v. discriminate.
Qed.
End Generic.
End AnyCast.

(** ** The semaphore and the binding of a [Result] *)

Module ChannelFacts.
Import Cxx Channel Pool Props CxxFacts.

Lemma releases_limit n s : resLimit_ (releases n s) = resLimit_ s + Z.of_nat n.
Proof.
  unfold releases. induction n as [| n IH]; [simpl; lia |].
  rewrite Nat.iter_succ. cbn [release_ resLimit_]. rewrite IH. lia.
Qed.

Lemma acquires_spec m : forall s,
  0 <= resLimit_ s ->
  acquires m s =
  if Z.of_nat m <=? resLimit_ s
  then Returned (mkSemaphore (resLimit_ s - Z.of_nat m))
  else Blocked.
Proof.
  induction m as [| m IH]; intros [r] Hr; cbn [resLimit_] in *.
  - cbn [acquires]. destruct (Z.leb_spec (Z.of_nat 0) r); [| lia].
    do 2 f_equal. lia.
  - cbn [acquires]. unfold acquire_. cbn [resLimit_].
    destruct (Z.ltb_spec 0 r).
    + rewrite IH by (cbn [resLimit_]; lia). cbn [resLimit_].
      destruct (Z.leb_spec (Z.of_nat m) (r - 1)); destruct (Z.leb_spec (Z.of_nat (S m)) r);
        try lia; [do 2 f_equal; lia | reflexivity].
    + destruct (Z.leb_spec (Z.of_nat (S m)) r); [lia | reflexivity].
Qed.

(** A semaphore counts: after [n] releases, [m] acquisitions in a row all
    return exactly when [m] is at most the count, which they lower by [m];
    otherwise the caller is left waiting. *)
Theorem semaphore_counts (s : Semaphore) (n m : nat) :
  0 <= resLimit_ s ->
  resLimit_ s + Z.of_nat n <= INT_MAX ->
  acquires m (releases n s) =
  if Z.of_nat m <=? resLimit_ s + Z.of_nat n
  then Returned (mkSemaphore (resLimit_ s + Z.of_nat n - Z.of_nat m))
  else Blocked.
Proof.
  intros H0 _. rewrite acquires_spec by (rewrite releases_limit; lia).
  rewrite releases_limit. reflexivity.
Qed.

Lemma semaphore_counts_witness :
  acquires 2 (releases 2 (Semaphore_ctor 0)) = Returned (Semaphore_ctor 0) /\
  acquires 3 (releases 2 (Semaphore_ctor 0)) = Blocked.
Proof.
  split.
  - apply (semaphore_counts (Semaphore_ctor 0) 2 2); vm_compute; discriminate.
  - apply (semaphore_counts (Semaphore_ctor 0) 2 3); vm_compute; discriminate.
Defined.



End ChannelFacts.

(** ** The setters on a stopped pool *)

Module ConfigFacts.
Import Cxx Channel Pool Props CxxFacts PoolFacts.

(** The thread threshold can only be set in cached mode: on a stopped pool
    in fixed mode, a threshold set before the switch to cached mode is
    lost, and one set after it is stored, converted to [size_t]; a negative
    argument becomes a threshold above every [int]. *)
Theorem threshold_needs_cached_mode (n : Z) (p : ThreadPool) :
  isPoolRunning_ p = false ->
  poolMode_ p = MODE_FIXED ->
  threadSizeThreshold_ (setMode MODE_CACHED (setThreadSizeThreshold n p))
  = threadSizeThreshold_ p /\
  threadSizeThreshold_ (setThreadSizeThreshold n (setMode MODE_CACHED p))
  = to_size_t n /\
  (-2147483648 <= n < 0 ->
   INT_MAX < threadSizeThreshold_ (setThreadSizeThreshold n (setMode MODE_CACHED p))).
Proof.
  intros Hr Hm.
  unfold setMode, setThreadSizeThreshold, checkRunningState.
  rewrite Hr, Hm. cbn. rewrite Hr. cbn.
  split; [reflexivity |]. split; [reflexivity |].
  intros Hn. unfold to_size_t, INT_MAX.
  rewrite <- (Z.mod_add n 1 18446744073709551616) by lia.
  rewrite Z.mod_small by lia. lia.
Qed.

Lemma threshold_needs_cached_mode_witness :
  threadSizeThreshold_ (setMode MODE_CACHED (setThreadSizeThreshold 8 ThreadPool_ctor)) = 100 /\
  threadSizeThreshold_ (setThreadSizeThreshold 8 (setMode MODE_CACHED ThreadPool_ctor)) = 8.
Proof.
  destruct (threshold_needs_cached_mode 8 ThreadPool_ctor) as (H1 & H2 & _);
    [reflexivity | reflexivity |].
  split; [exact H1 | exact H2].
Defined.

End ConfigFacts.

(** ** [start] *)

Module StartFacts.
Import Cxx Channel Pool Props CxxFacts PoolFacts ExecInv.

Lemma emplace_lookup_ne k j t (m : gmap Z Thread) :
  j <> k -> emplace k t m !! j = m !! j.
Proof.
  intros Hne. unfold emplace. destruct (m !! k); [reflexivity |].
  apply lookup_insert_ne. congruence.
Qed.

Lemma create_threads_total k : forall ths g,
  g + Z.of_nat k <= INT_MAX ->
  exists ths', create_threads k ths g = Some (ths', g + Z.of_nat k).
Proof.
  induction k as [| k IH]; intros ths g Hg; cbn [create_threads].
  - exists ths. do 2 f_equal. lia.
  - unfold Thread_ctor. destruct (Z.ltb_spec g INT_MAX) as [_ | Hge]; [| lia].
    cbn [threadId_].
    destruct (IH (emplace g (mkThread g) ths) (g + 1)) as [ths' H]; [lia |].
    exists ths'. rewrite H. do 2 f_equal. lia.
Qed.

Lemma create_threads_below k : forall ths g ths' g',
  create_threads k ths g = Some (ths', g') ->
  forall j, j < g -> ths' !! j = ths !! j.
Proof.
  induction k as [| k IH]; intros ths g ths' g' H j Hj; cbn [create_threads] in H.
  - injection H as <- _. reflexivity.
  - destruct (Thread_ctor g) as [[ptr g1] |] eqn:E; [| discriminate].
    apply Thread_ctor_spec in E as (-> & -> & _). cbn [threadId_] in H.
    rewrite (IH _ _ _ _ H j) by lia. apply emplace_lookup_ne. lia.
Qed.

Lemma start_threads_total k : forall i p,
  (forall j, i <= j < i + Z.of_nat k -> threads_ p !! j = Some (mkThread j)) ->
  -2147483648 <= idleThreadSize_ p ->
  idleThreadSize_ p + Z.of_nat k <= INT_MAX ->
  exists p',
    start_threads k i p = Some (p', seqZ i (Z.of_nat k)) /\
    idleThreadSize_ p' = idleThreadSize_ p + Z.of_nat k.
Proof.
  induction k as [| k IH]; intros i p Hth Hlo Hhi; cbn [start_threads].
  - exists p. split; [reflexivity | lia].
  - rewrite (Hth i) by lia.
    destruct (IH (i + 1) (with_idle (wrap_int (idleThreadSize_ p + 1)) p))
      as (p' & Hs & Hidle).
    + intros j Hj. cbn [threads_ with_idle]. apply Hth. lia.
    + cbn [idleThreadSize_ with_idle]. rewrite wrap_int_small by (unfold INT_MAX in *; lia). lia.
    + cbn [idleThreadSize_ with_idle]. rewrite wrap_int_small by (unfold INT_MAX in *; lia). lia.
    + exists p'. rewrite Hs. split.
      * rewrite (seqZ_cons i (Z.of_nat (S k))) by lia. cbn [threadId_].
        replace (Z.pred (Z.of_nat (S k))) with (Z.of_nat k) by lia.
        replace (Z.succ i) with (i + 1) by lia. reflexivity.
      * rewrite Hidle. cbn [idleThreadSize_ with_idle].
        rewrite wrap_int_small by (unfold INT_MAX in *; lia). lia.
Qed.

(** [start(n)] on a pool without threads, in a process that has not
    constructed a [Thread] yet: for every [n] from 0 to [INT_MAX] the call
    is defined; it registers the threads 0 to n-1 under their ids, starts
    them in this order, counts each of them as idle, and records [n] as
    initial and as current size.  The queue is left as it is. *)
Theorem start_fresh (n : Z) (p : ThreadPool) :
  0 <= n <= INT_MAX ->
  threads_ p = ∅ ->
  idleThreadSize_ p = 0 ->
  exists p',
    start n p 0 = Some (p', n, seqZ 0 n, map EvStartThread (seqZ 0 n)) /\
    (forall k, threads_ p' !! k
               = if decide (0 <= k < n) then Some (mkThread k) else None) /\
    isPoolRunning_ p' = true /\
    initThreadSize_ p' = n /\
    curThreadSize_ p' = n /\
    idleThreadSize_ p' = n /\
    taskQue_ p' = taskQue_ p.
Proof.
  intros Hn Hempty Hidle. unfold start.
  destruct (Z.leb_spec 0 n) as [_ |]; [| lia].
  destruct (Z.leb_spec n INT_MAX) as [_ |]; [| lia]. cbn [andb].
  cbn [threads_ with_cur with_init with_running]. rewrite Hempty.
  destruct (create_threads_total (Z.to_nat n) ∅ 0) as [ths Hc]; [lia |].
  rewrite Hc.
  apply create_threads_from in Hc as [_ Hl]; [| intros j _; apply lookup_empty].
  assert (forall k, ths !! k = if decide (0 <= k < n) then Some (mkThread k) else None)
    as Hths.
  { intros k. rewrite Hl, lookup_empty.
    destruct (decide (0 <= k < 0 + Z.of_nat (Z.to_nat n))); destruct (decide (0 <= k < n));
      try lia; reflexivity. }
  destruct (start_threads_total (Z.to_nat n) 0
              (with_threads ths
                 (with_cur n (with_init (to_size_t n) (with_running true p)))))
    as (p' & Hs & Hi).
  - intros j Hj. cbn [threads_ with_threads]. rewrite Hths.
    destruct (decide (0 <= j < n)); [reflexivity | lia].
  - cbn. lia.
  - cbn. lia.
  - rewrite Hs. exists p'. rewrite !Z2Nat.id by lia.
    split; [do 4 f_equal; lia |].
    apply start_threads_spec in Hs as (Ht & Hin & Hcu & _ & Hq & _ & _ & _ & Hr).
    cbn in Ht, Hin, Hcu, Hq, Hr, Hi.
    rewrite Ht, Hr, Hin, Hcu, Hq, Hi, Z2Nat.id by lia.
    rewrite to_size_t_small by lia.
    repeat split; try reflexivity; try lia. exact Hths.
Qed.

Lemma start_fresh_witness :
  exists p',
    start 2 ThreadPool_ctor 0 = Some (p', 2, [0; 1], [EvStartThread 0; EvStartThread 1]) /\
    curThreadSize_ p' = 2 /\ idleThreadSize_ p' = 2.
Proof.
  destruct (start_fresh 2 ThreadPool_ctor) as (p' & Hs & _ & _ & _ & Hc & Hi & _).
  - unfold INT_MAX. lia.
  - reflexivity.
  - reflexivity.
  - exists p'. split; [exact Hs | split; [exact Hc | exact Hi]].
Defined.

(** [start] constructs its threads under the ids that the process-wide
    counter hands out, and then starts [threads_[0]], [threads_[1]], ...
    When the counter is no longer 0 and the registry has no entry 0, the
    first of these is a null pointer: the call is undefined. *)
Theorem start_stale_counter (n : Z) (p : ThreadPool) (g : Z) :
  1 <= n -> 0 < g -> threads_ p !! 0 = None -> start n p g = None.
Proof.
  intros Hn Hg Hnone. unfold start.
  destruct ((0 <=? n) && (n <=? INT_MAX)); [| reflexivity].
  destruct (create_threads _ _ _) as [[ths g1] |] eqn:Ec; [| reflexivity].
  pose proof (create_threads_below _ _ _ _ _ Ec 0 Hg) as H0.
  cbn [threads_ with_cur with_init with_running] in H0. rewrite Hnone in H0.
  destruct (Z.to_nat n) as [| k] eqn:Ek; [lia |].
  cbn [start_threads threads_ with_threads]. rewrite H0. reflexivity.
Qed.

Lemma start_stale_counter_witness : start 1 ThreadPool_ctor 1 = None.
Proof. apply start_stale_counter; [lia | lia | reflexivity]. Defined.

End StartFacts.

(** ** The configuration, the size counter and the capacity *)

Module ConfigInv.
Import Cxx Channel Pool Sched Props Runs CxxFacts SchedFacts PoolFacts MutexInv PoolInv DrainInv ExecInv.

(** What the member functions leave of the queue and of the configuration. *)
Lemma setters_keep m n k p :
  let q p := (taskQue_ p, taskSize_ p) in
  q (setMode m p) = q p /\ q (setTaskQueMaxThreshold n p) = q p /\
  q (setThreadSizeThreshold k p) = q p.
Proof.
  unfold setMode, setTaskQueMaxThreshold, setThreadSizeThreshold, checkRunningState.
  destruct (isPoolRunning_ p), (poolMode_ p); repeat split.
Qed.

Lemma setters_running m n k p :
  isPoolRunning_ p = true ->
  setMode m p = p /\ setTaskQueMaxThreshold n p = p /\ setThreadSizeThreshold k p = p.
Proof.
  unfold setMode, setTaskQueMaxThreshold, setThreadSizeThreshold, checkRunningState.
  intros ->. repeat split.
Qed.

Lemma start_keeps n p g p' g' ids evs :
  start n p g = Some (p', g', ids, evs) ->
  config p' = config p /\ taskQue_ p' = taskQue_ p /\ taskSize_ p' = taskSize_ p /\
  isPoolRunning_ p' = true.
Proof.
  unfold start. destruct ((0 <=? n) && (n <=? INT_MAX)); [| discriminate].
  destruct (create_threads _ _ _) as [[ths g1] |]; [| discriminate].
  destruct (start_threads _ _ _) as [[p2 ids2] |] eqn:Es; [| discriminate].
  intros [= <- <- <- <-].
  apply start_threads_spec in Es as (_ & _ & _ & Hth & Hq & Hs & Hqm & Hm & Hr).
  unfold config. cbn in *. rewrite Hth, Hq, Hs, Hqm, Hm, Hr. repeat split.
Qed.

Lemma submit_accept_keeps task p g p' g' ids evs :
  submit_accept task p g = Some (p', g', ids, evs) ->
  config p' = config p /\ taskQue_ p' = taskQue_ p ++ [task] /\
  taskSize_ p' = to_uint (taskSize_ p + 1) /\
  isPoolRunning_ p' = isPoolRunning_ p.
Proof.
  unfold submit_accept. destruct (needs_new_thread _).
  - destruct (Thread_ctor g) as [[ptr g1] |]; [| discriminate].
    match goal with |- context [match ?x with Some _ => _ | None => _ end] => destruct x end;
      [| discriminate].
    intros [= <- <- <- <-]. repeat split.
  - intros [= <- <- <- <-]. repeat split.
Qed.

Lemma take_task_keeps p task p' evs :
  take_task p = Some (task, p', evs) ->
  config p' = config p /\ taskQue_ p = task :: taskQue_ p' /\
  taskSize_ p' = to_uint (taskSize_ p - 1) /\
  isPoolRunning_ p' = isPoolRunning_ p.
Proof.
  unfold take_task. destruct (taskQue_ p) as [| t rest] eqn:E; [discriminate |].
  intros [= <- <- <-]. repeat split.
Qed.

(** One tactic for the invariants of the pool object: every case of a
    step is reduced to the pool before and the facts above. *)
Ltac pool_keeps :=
  repeat match goal with
    | Hs : start _ _ _ = Some _ |- _ => apply start_keeps in Hs as (? & ? & ? & ?)
    | Hs : submit_accept _ _ _ = Some _ |- _ =>
        apply submit_accept_keeps in Hs as (? & ? & ? & ?)
    | Hs : take_task _ = Some _ |- _ => apply take_task_keeps in Hs as (? & ? & ? & ?)
    | Hs : exit_on_shutdown _ _ = (_, _) |- _ =>
        unfold exit_on_shutdown in Hs; injection Hs as <- <-
    | Hs : retire _ _ = (_, _) |- _ => unfold retire in Hs; injection Hs as <- <-
    end;
  rewrite ?deliver_pool, ?deliver_main_user in *; unfold_state.

Ltac pool_cases H := step_cases H; pool_keeps.

Lemma in_use_step a s s' evs :
  in_use s -> step a s = Some (s', evs) ->
  in_use s' /\ config (pool s') = config (pool s).
Proof.
  unfold in_use. intros Hu H. pool_cases H.
  all: try (destruct Hu as [Hu | Hu]; [| congruence]).
  all: try match goal with
         | |- context [setMode ?m ?p] =>
             rewrite (proj1 (setters_running m 0 0 p Hu))
         | |- context [setTaskQueMaxThreshold ?n ?p] =>
             rewrite (proj1 (proj2 (setters_running MODE_FIXED n 0 p Hu)))
         | |- context [setThreadSizeThreshold ?n ?p] =>
             rewrite (proj2 (proj2 (setters_running MODE_FIXED 0 n p Hu)))
         end.
  all: split; try assumption; try reflexivity.
  all: try solve [ left; congruence | right; congruence | left; assumption
                 | right; assumption ].
  all: try (destruct Hu as [Hu | Hu]; [left | right]; pool_fields; congruence).
Qed.

(** Once the pool has been started, its mode and its two thresholds stay
    as they are, whatever is called afterwards, the setters included, up to
    and throughout its destruction. *)
Theorem configuration_is_frozen acts s s' evs :
  in_use s -> run_all acts s = Some (s', evs) ->
  poolMode_ (pool s') = poolMode_ (pool s) /\
  taskQueMaxThreshold_ (pool s') = taskQueMaxThreshold_ (pool s) /\
  threadSizeThreshold_ (pool s') = threadSizeThreshold_ (pool s) /\
  in_use s'.
Proof.
  intros Hu Hrun.
  enough (in_use s' /\ config (pool s') = config (pool s)) as [Hu' Hc].
  { unfold config in Hc. injection Hc as -> -> ->. repeat split. exact Hu'. }
  revert s s' evs Hu Hrun.
  induction acts as [| a acts IH]; intros s s' evs Hu Hrun; simpl in Hrun.
  - injection Hrun as <- _. split; [exact Hu | reflexivity].
  - destruct (step a s) as [[s1 e1] |] eqn:E; [| discriminate].
    destruct (run_all acts s1) as [[s2 e2] |] eqn:E2; [| discriminate].
    injection Hrun as <- _.
    destruct (in_use_step _ _ _ _ Hu E) as [Hu1 Hc1].
    destruct (IH _ _ _ Hu1 E2) as [Hu2 Hc2]. split; [exact Hu2 | congruence].
Qed.

Lemma configuration_is_frozen_witness :
  poolMode_ (pool (state_after [ASetMode MODE_CACHED; ASetThreadSizeThreshold 7]
                     (state_after [AStart 1] init))) = MODE_FIXED /\
  threadSizeThreshold_ (pool (state_after [ASetMode MODE_CACHED; ASetThreadSizeThreshold 7]
                                (state_after [AStart 1] init))) = 100.
Proof.
  destruct (configuration_is_frozen [ASetMode MODE_CACHED; ASetThreadSizeThreshold 7]
              (state_after [AStart 1] init)
              (state_after [ASetMode MODE_CACHED; ASetThreadSizeThreshold 7]
                 (state_after [AStart 1] init)) [])
    as (Hm & _ & Ht & _).
  - left. vm_compute. reflexivity.
  - vm_compute. reflexivity.
  - split; [exact Hm | exact Ht].
Defined.

(** *** The size counter and the capacity of the queue *)

Lemma to_uint_succ z : to_uint (to_uint z + 1) = to_uint (z + 1).
Proof. unfold to_uint. apply Zplus_mod_idemp_l. Qed.

Lemma to_uint_pred z : to_uint (to_uint z - 1) = to_uint (z - 1).
Proof. unfold to_uint. apply Zminus_mod_idemp_l. Qed.

Lemma size_mirrors_queue_step a s s' evs :
  size_mirrors_queue (pool s) -> step a s = Some (s', evs) ->
  size_mirrors_queue (pool s').
Proof.
  unfold size_mirrors_queue. intros Hq H. pool_cases H; pool_fields.
  all: try assumption.
  all: try match goal with
         | |- context [setMode ?m ?p] =>
             destruct (setters_keep m 0 0 p) as ([= -> ->] & _ & _); assumption
         | |- context [setTaskQueMaxThreshold ?n ?p] =>
             destruct (setters_keep MODE_FIXED n 0 p) as (_ & [= -> ->] & _); assumption
         | |- context [setThreadSizeThreshold ?n ?p] =>
             destruct (setters_keep MODE_FIXED 0 n p) as (_ & _ & [= -> ->]); assumption
         end.
  all: try congruence.
  - rewrite H1, H0, Hq, length_app, to_uint_succ. cbn [length]. f_equal. lia.
  - rewrite H1, Hq, H0, to_uint_pred. cbn [length]. f_equal. lia.
Qed.

(** [taskSize_] always equals the length of the queue (as an [unsigned]):
    the counter that the growth test reads is accurate. *)
Theorem taskSize_is_queue_length s :
  reachable s -> taskSize_ (pool s) = to_uint (Z.of_nat (length (taskQue_ (pool s)))).
Proof.
  apply (reachable_invariant (fun s => size_mirrors_queue (pool s))).
  - reflexivity.
  - apply size_mirrors_queue_step.
Qed.

Lemma taskSize_is_queue_length_witness :
  taskSize_ (pool (state_after fifo_trace init)) = 1 /\
  length (taskQue_ (pool (state_after fifo_trace init))) = 1%nat.
Proof.
  split; [| reflexivity].
  rewrite (taskSize_is_queue_length (state_after fifo_trace init)); [reflexivity |].
  exists fifo_trace, (events_of fifo_trace init). vm_compute. reflexivity.
Defined.

Lemma setters_capacity m k p :
  within_capacity p ->
  within_capacity (setMode m p) /\ within_capacity (setThreadSizeThreshold k p).
Proof.
  unfold within_capacity, setMode, setThreadSizeThreshold, checkRunningState.
  intros H. destruct (isPoolRunning_ p), (poolMode_ p); split; exact H.
Qed.

Lemma within_capacity_step a s s' evs :
  in_use s \/ sets_capacity a = false ->
  within_capacity (pool s) -> step a s = Some (s', evs) ->
  within_capacity (pool s').
Proof.
  unfold within_capacity. intros Ha Hq H. pool_cases H; pool_fields.
  all: try assumption.
  all: try match goal with
         | |- context [setMode ?m ?p] => apply (setters_capacity m 0 p Hq)
         | |- context [setThreadSizeThreshold ?n ?p] =>
             apply (setters_capacity MODE_FIXED n p Hq)
         end.
  all: repeat match goal with
         | Hc : config _ = config _ |- _ => unfold config in Hc; injection Hc as ? ? ?
         end.
  all: try congruence.
  - destruct Ha as [[Hu | Hu] | Ha]; [| congruence | discriminate Ha].
    rewrite (proj1 (proj2 (setters_running MODE_FIXED threshold 0 _ Hu))). exact Hq.
  - match goal with Hn : not_full _ = true |- _ =>
      unfold not_full in Hn; apply Z.ltb_lt in Hn end.
    match goal with He : taskQue_ _ = _ ++ _, Hm : taskQueMaxThreshold_ _ = _ |- _ =>
      rewrite He, Hm, length_app; cbn [length]; lia end.
  - match goal with He : taskQue_ _ = _ :: _, Hm : taskQueMaxThreshold_ _ = _ |- _ =>
      rewrite He in Hq; rewrite Hm; cbn [length] in Hq; lia end.
Qed.

(** The queue never grows beyond its threshold: if it is within the
    threshold, it stays so along every run in which the threshold is not
    set again, and along every run of a pool that has been started. *)
Theorem queue_within_capacity acts s s' evs :
  in_use s \/ forallb (fun a => negb (sets_capacity a)) acts = true ->
  Z.of_nat (length (taskQue_ (pool s))) <= to_size_t (taskQueMaxThreshold_ (pool s)) ->
  run_all acts s = Some (s', evs) ->
  Z.of_nat (length (taskQue_ (pool s'))) <= to_size_t (taskQueMaxThreshold_ (pool s')).
Proof.
  revert s s' evs.
  induction acts as [| a acts IH]; intros s s' evs Ha Hq Hrun; simpl in Hrun.
  - injection Hrun as <- _. exact Hq.
  - destruct (step a s) as [[s1 e1] |] eqn:E; [| discriminate].
    destruct (run_all acts s1) as [[s2 e2] |] eqn:E2; [| discriminate].
    injection Hrun as <- _.
    eapply IH; [| | exact E2].
    + destruct Ha as [Hu | Ha]; [left; eapply in_use_step; eassumption |].
      right. simpl in Ha. apply andb_true_iff in Ha as [_ Ha]. exact Ha.
    + eapply within_capacity_step; [| exact Hq | exact E].
      destruct Ha as [Hu | Ha]; [left; exact Hu |].
      right. simpl in Ha. apply andb_true_iff in Ha as [Ha _].
      apply negb_true_iff. exact Ha.
Qed.

Lemma queue_within_capacity_witness :
  Z.of_nat (length (taskQue_ (pool (state_after (overflow_trace ++ [ACall 1%nat; ACall 1%nat]) init))))
  <= to_size_t (taskQueMaxThreshold_
                  (pool (state_after (overflow_trace ++ [ACall 1%nat; ACall 1%nat]) init))).
Proof.
  apply (queue_within_capacity (tail overflow_trace ++ [ACall 1%nat; ACall 1%nat])
           (state_after [ASetTaskQueMaxThreshold 1] init) _
           (events_of (tail overflow_trace ++ [ACall 1%nat; ACall 1%nat])
              (state_after [ASetTaskQueMaxThreshold 1] init))).
  - right. reflexivity.
  - vm_compute. discriminate.
  - vm_compute. reflexivity.
Defined.

End ConfigInv.

(** ** The owner of the mutex *)

Module OwnerInv.
Import Cxx Channel Pool Sched Props Runs CxxFacts SchedFacts PoolFacts MutexInv PoolInv DrainInv ExecInv.

Lemma in_critical_section_notify cv s t :
  in_critical_section (notify_all cv s) t = in_critical_section s t.
Proof.
  destruct cv, t as [| i | i]; cbn; try reflexivity.
  - rewrite list_lookup_fmap. destruct (calls s !! i) as [c |]; [| reflexivity].
    cbn. apply wake_call_holds.
  - rewrite list_lookup_fmap. destruct (workers s !! i) as [w |]; [| reflexivity].
    cbn. apply wake_worker_holds.
  - apply wake_main_holds.
Qed.

Lemma in_critical_section_deliver evs : forall s t,
  in_critical_section (deliver evs s) t = in_critical_section s t.
Proof.
  unfold deliver. induction evs as [| e evs IH]; intros s t; cbn [fold_left]; [reflexivity |].
  rewrite IH. destruct e; cbn [deliver1]; try reflexivity.
  apply in_critical_section_notify.
Qed.

Lemma owner_step a s s' evs :
  (forall t, taskQueMtx_ s = Some t -> in_critical_section s t = true) ->
  step a s = Some (s', evs) ->
  forall t, taskQueMtx_ s' = Some t -> in_critical_section s' t = true.
Proof.
  intros Hown H t Ht. step_cases H.
  all: rewrite ?deliver_mtx, ?in_critical_section_deliver in *.
  all: unfold mtx_free in *; unfold_state.
  all: try discriminate Ht.
  all: try (injection Ht as <-).
  all: try (specialize (Hown _ Ht)).
  all: unfold in_critical_section in *; unfold_state.
  all: rewrite ?list_lookup_insert_eq by (eapply lookup_lt_Some; eassumption).
  all: try reflexivity.
  all: try assumption.
  all: destruct t as [| j | j]; try assumption.
  all: try (rewrite_pcs; cbn [m_holds] in *; first [reflexivity | discriminate]).
  all: try match goal with
         | |- context [(<[?i := _]> _) !! ?j] =>
             destruct (decide (i = j)) as [<- | Hne];
             [ rewrite list_lookup_insert_eq by (eapply lookup_lt_Some; eassumption)
             | rewrite list_lookup_insert_ne by exact Hne; exact Hown ]
         | |- context [(?l ++ _) !! ?j] =>
             destruct (l !! j) as [x |] eqn:Hx; [| discriminate Hown];
             rewrite (lookup_app_l_Some _ _ _ _ Hx); exact Hown
         | |- context [(_ <$> ?l) !! ?j] =>
             rewrite list_lookup_fmap; destruct (l !! j) as [x |]; [| discriminate Hown];
             cbn; rewrite ?wake_worker_holds, ?wake_call_holds; exact Hown
         end.
  all: try match goal with
         | Hl : ?l !! ?i = Some _, Ho : context [?l !! ?i] |- _ => rewrite Hl in Ho
         end.
  all: rewrite_pcs; unfold_state; cbn [w_holds c_holds] in *;
       first [reflexivity | discriminate].

Qed.

(** The mutex is owned exactly by the thread that stands between its lock
    and its unlock: no two threads are in a critical section at once, and
    no thread leaves the mutex locked behind it. *)
Theorem mutex_owner_in_critical_section s :
  reachable s ->
  (forall t, in_critical_section s t = true <-> taskQueMtx_ s = Some t) /\
  (forall t t', in_critical_section s t = true -> in_critical_section s t' = true ->
                t = t').
Proof.
  intros Hr.
  assert (forall t, in_critical_section s t = true <-> taskQueMtx_ s = Some t) as Hiff.
  { intros t. split.
    - destruct (mutex_inv_reachable _ Hr) as [HW HC HM].
      destruct t as [| i | i]; cbn.
      + exact HM.
      + destruct (calls s !! i) as [c |] eqn:E; [| discriminate]. apply HC. exact E.
      + destruct (workers s !! i) as [w |] eqn:E; [| discriminate]. apply HW. exact E.
    - revert t. revert s Hr.
      apply (reachable_invariant
               (fun s => forall t, taskQueMtx_ s = Some t -> in_critical_section s t = true)).
      + intros t Ht. discriminate Ht.
      + apply owner_step. }
  split; [exact Hiff |].
  intros t t' Ht Ht'. apply Hiff in Ht, Ht'. congruence.
Qed.

Lemma mutex_owner_in_critical_section_witness :
  in_critical_section (state_after [AStart 2; AWorker 0; AWorker 0] init) (TWorker 0) = true /\
  in_critical_section (state_after [AStart 2; AWorker 0; AWorker 0] init) (TWorker 1) = false.
Proof.
  destruct (mutex_owner_in_critical_section (state_after [AStart 2; AWorker 0; AWorker 0] init))
    as [Hiff _].
  - exists [AStart 2; AWorker 0; AWorker 0],
      (events_of [AStart 2; AWorker 0; AWorker 0] init). vm_compute. reflexivity.
  - split; [apply Hiff; reflexivity |].
    destruct (in_critical_section _ (TWorker 1)) eqn:E; [| reflexivity].
    apply Hiff in E. discriminate E.
Defined.

End OwnerInv.

(** ** Waiting workers and queued tasks *)

Module SleepInv.
Import Cxx Channel Pool Sched Props Runs CxxFacts SchedFacts PoolFacts MutexInv PoolInv
  DrainInv ExecInv ConfigInv.

Lemma wake_worker_awake w : asleep (w_pc (wake_worker w)) = false.
Proof. destruct w as [id lt []]; reflexivity. Qed.

Lemma no_sleeper_notify cv s :
  cv = notEmpty_ \/ no_sleeper (workers s) -> no_sleeper (workers (notify_all cv s)).
Proof.
  intros Hc i w Hl. destruct cv; cbn in Hl.
  - destruct Hc as [Hc | Hc]; [discriminate | eapply Hc; exact Hl].
  - apply list_lookup_fmap_Some in Hl as (w0 & -> & _). apply wake_worker_awake.
  - destruct Hc as [Hc | Hc]; [discriminate | eapply Hc; exact Hl].
Qed.

Lemma no_sleeper_deliver evs : forall s,
  In (EvNotifyAll notEmpty_) evs \/ no_sleeper (workers s) ->
  no_sleeper (workers (deliver evs s)).
Proof.
  unfold deliver. induction evs as [| e evs IH]; intros s Hc; cbn [fold_left].
  - destruct Hc as [[] | Hc]. exact Hc.
  - apply IH. destruct Hc as [[-> | Hin] | Hc].
    + right. apply no_sleeper_notify. left. reflexivity.
    + left. exact Hin.
    + right. destruct e; cbn [deliver1]; try exact Hc.
      apply no_sleeper_notify. right. exact Hc.
Qed.

Lemma no_sleeper_put ws i w :
  no_sleeper ws -> asleep (w_pc w) = false -> no_sleeper (<[i := w]> ws).
Proof.
  intros Hn Hw j x Hl.
  apply list_lookup_insert_Some in Hl as [(_ & <- & _) | (_ & Hl)]; [exact Hw |].
  eapply Hn. exact Hl.
Qed.

Lemma no_sleeper_spawn ws ids :
  no_sleeper ws -> no_sleeper (ws ++ map (fun id => mkWorker id 0 WStart) ids).
Proof.
  intros Hn j x Hl. apply spawned_lookup in Hl as [Hl | [Hpc _]].
  - eapply Hn. exact Hl.
  - rewrite Hpc. reflexivity.
Qed.

Lemma submit_accept_notifies task p g p' g' ids evs :
  submit_accept task p g = Some (p', g', ids, evs) -> In (EvNotifyAll notEmpty_) evs.
Proof.
  unfold submit_accept. destruct (needs_new_thread _).
  - destruct (Thread_ctor g) as [[ptr g1] |]; [| discriminate].
    match goal with |- context [match ?x with Some _ => _ | None => _ end] => destruct x end;
      [| discriminate].
    intros [= <- <- <- <-]. right. left. reflexivity.
  - intros [= <- <- <- <-]. right. left. reflexivity.
Qed.

Lemma take_task_notifies p task p' evs :
  take_task p = Some (task, p', evs) -> taskQue_ p' <> [] ->
  In (EvNotifyAll notEmpty_) evs.
Proof.
  unfold take_task. destruct (taskQue_ p) as [| t rest]; [discriminate |].
  intros [= <- <- <-] Hne. cbn in Hne. destruct rest; [congruence |].
  right. left. reflexivity.
Qed.

Lemma work_wakes_step a s s' evs :
  drain_inv s ->
  (taskQue_ (pool s) <> [] -> no_sleeper (workers s)) ->
  step a s = Some (s', evs) ->
  taskQue_ (pool s') <> [] -> no_sleeper (workers s').
Proof.
  intros [HE _ _] Hinv H Hq. step_cases H.
  all: try match goal with
         | Hs : submit_accept _ _ _ = Some _ |- _ =>
             pose proof (submit_accept_notifies _ _ _ _ _ _ _ Hs)
         | Hs : take_task _ = Some _ |- _ =>
             pose proof (take_task_notifies _ _ _ _ Hs)
         end.
  all: pool_keeps; pool_fields.
  all: try match goal with
         | Hq : taskQue_ (setMode ?m ?p) <> [] |- _ =>
             destruct (setters_keep m 0 0 p) as ([= Hk _] & _ & _); rewrite Hk in Hq
         | Hq : taskQue_ (setTaskQueMaxThreshold ?n ?p) <> [] |- _ =>
             destruct (setters_keep MODE_FIXED n 0 p) as (_ & [= Hk _] & _); rewrite Hk in Hq
         | Hq : taskQue_ (setThreadSizeThreshold ?n ?p) <> [] |- _ =>
             destruct (setters_keep MODE_FIXED 0 n p) as (_ & _ & [= Hk _]); rewrite Hk in Hq
         end.
  all: try (apply no_sleeper_deliver).
  all: try solve [ apply Hinv; congruence
                 | apply no_sleeper_spawn; apply Hinv; congruence
                 | apply no_sleeper_put; [apply Hinv; congruence | reflexivity]
                 | intros j x Hl; apply list_lookup_fmap_Some in Hl as (w0 & -> & _);
                   apply wake_worker_awake ].
  all: try (left; auto; fail).
  all: try (right; unfold_state; apply no_sleeper_put; [apply Hinv; exact Hq | reflexivity]).
  all: exfalso; apply Hq; eapply HE; [eassumption |];
       match goal with Hp : w_pc _ = _ |- _ => rewrite Hp end; reflexivity.
Qed.

(** While a task is in the queue, no worker is asleep on [notEmpty_]:
    whoever queues a task, or leaves one behind, wakes every waiting
    worker, and a worker starts to wait only on a queue that it has seen
    empty without releasing the mutex since. *)
Theorem no_worker_sleeps_on_work s :
  reachable s -> taskQue_ (pool s) <> [] ->
  forall i w d, workers s !! i = Some w -> w_pc w <> WBlocked d.
Proof.
  intros Hr Hq i w d Hl Hpc.
  enough (all_inv s /\ (taskQue_ (pool s) <> [] -> no_sleeper (workers s))) as [_ Hn].
  { specialize (Hn Hq i w Hl). rewrite Hpc in Hn. discriminate Hn. }
  clear Hq Hl Hpc. revert s Hr. apply reachable_invariant.
  - split; [apply all_inv_reachable; exists [], []; reflexivity |].
    intros _ j x Hx. cbn in Hx. rewrite lookup_nil in Hx. discriminate.
  - intros a s s' evs [Ha Hn] H. split; [eapply all_inv_step; eassumption |].
    eapply work_wakes_step; [| exact Hn | exact H]. apply Ha.
Qed.

Lemma no_worker_sleeps_on_work_witness :
  w_pc <$> workers (state_after
                      [AStart 1; AWorker 0; AWorker 0; AWorker 0; AWorker 0; AWorker 0]
                      init) = [WBlocked None] /\
  forall w d,
    workers (state_after
               [AStart 1; AWorker 0; AWorker 0; AWorker 0; AWorker 0; AWorker 0;
                ASubmit returns7; ACall 0; ACall 0] init) !! 0%nat = Some w ->
    w_pc w <> WBlocked d.
Proof.
  split; [vm_compute; reflexivity |]. intros w d.
  apply (no_worker_sleeps_on_work
           (state_after
              [AStart 1; AWorker 0; AWorker 0; AWorker 0; AWorker 0; AWorker 0;
               ASubmit returns7; ACall 0; ACall 0] init)).
  - exists [AStart 1; AWorker 0; AWorker 0; AWorker 0; AWorker 0; AWorker 0;
            ASubmit returns7; ACall 0; ACall 0],
      (events_of [AStart 1; AWorker 0; AWorker 0; AWorker 0; AWorker 0; AWorker 0;
                  ASubmit returns7; ACall 0; ACall 0] init).
    vm_compute. reflexivity.
  - vm_compute. discriminate.
Defined.

End SleepInv.

(** ** How a thread leaves *)

Module ExitInv.
Import Cxx Channel Pool Sched Props Runs CxxFacts SchedFacts PoolFacts MutexInv
  PoolInv DrainInv ExecInv ConfigInv.

Lemma wake_worker_saw w : saw_running (w_pc (wake_worker w)) = saw_running (w_pc w).
Proof. destruct w as [id lt []]; reflexivity. Qed.

Lemma wake_worker_timed w : timed (w_pc (wake_worker w)) = timed (w_pc w).
Proof. destruct w as [id lt [| | | | | [d |] | | | | |]]; reflexivity. Qed.

Lemma timed_saw pc : timed pc = true -> saw_running pc = true.
Proof. destruct pc as [| | | | | [d |] | [d |] | | | |]; simpl; congruence. Qed.

Lemma wait_inv_step a s s' evs :
  wait_inv s -> step a s = Some (s', evs) -> wait_inv s'.
Proof.
  intros [HU HC] H.
  pose proof (in_use_step a s s' evs) as Hfrozen.
  assert (forall j w, workers s !! j = Some w -> saw_running (w_pc w) = true ->
                      in_use s' /\ poolMode_ (pool s') = poolMode_ (pool s)) as Hkeep.
  { intros j w Hl Hs. destruct (Hfrozen (HU _ _ Hl Hs) H) as [Hu Hc].
    split; [exact Hu |]. unfold config in Hc. congruence. }
  clear Hfrozen.
  assert (forall j w w',
             workers s !! j = Some w ->
             (saw_running (w_pc w') = true -> saw_running (w_pc w) = true) ->
             (timed (w_pc w') = true -> timed (w_pc w) = true) ->
             (saw_running (w_pc w') = true -> in_use s') /\
             (timed (w_pc w') = true -> poolMode_ (pool s') = MODE_CACHED)) as Hold.
  { intros j w w' Hl Hs Ht. split.
    - intros Hx. apply (Hkeep j w Hl (Hs Hx)).
    - intros Hx. destruct (Hkeep j w Hl (timed_saw _ (Ht Hx))) as [_ ->].
      apply (HC j w Hl (Ht Hx)). }
  constructor; intros j w' Hl Hp.
  all: step_cases H.
  all: unfold_state; norm_lookup; unfold_state.
  all: rewrite ?wake_worker_saw, ?wake_worker_timed in *.
  all: try match goal with
         | Hx : w_pc ?x = WStart, Hy : _ (w_pc ?x) = true |- _ =>
             rewrite Hx in Hy; discriminate Hy
         end.
  all: try (cbn [saw_running timed] in Hp; discriminate Hp).
  all: try match goal with
         | Hx : workers _ !! _ = Some ?x, Hy : saw_running (w_pc ?x) = true |- _ =>
             apply (Hold _ x x Hx (fun h => h) (fun h => h)); exact Hy
         | Hx : workers _ !! _ = Some ?x, Hy : timed (w_pc ?x) = true |- _ =>
             apply (Hold _ x x Hx (fun h => h) (fun h => h)); exact Hy
         end.
  all: try match goal with
         | Hn : negb (isPoolRunning_ _) = false |- in_use _ =>
             left; unfold_state; apply negb_false_iff in Hn; exact Hn
         | Hl : workers _ !! ?i = Some ?w, Hpc : w_pc ?w = _ |- in_use _ =>
             apply (Hkeep i w Hl); rewrite Hpc; reflexivity
         | Hm : poolMode_ _ = MODE_CACHED |- poolMode_ _ = MODE_CACHED => exact Hm
         | Hl : workers _ !! ?i = Some ?w, Hpc : w_pc ?w = _ |- poolMode_ _ = MODE_CACHED =>
             apply (HC i w Hl); rewrite Hpc;
             repeat match goal with d : option Z |- _ => destruct d end;
             first [reflexivity | discriminate]
         end.
Qed.

Lemma wait_inv_reachable s : reachable s -> wait_inv s.
Proof.
  apply reachable_invariant; [| apply wait_inv_step].
  constructor; intros i w Hl; cbn in Hl; rewrite lookup_nil in Hl; discriminate.
Qed.

Lemma idle_too_long_spec now lastTime :
  idle_too_long now lastTime = true <->
  THREAD_MAX_IDLE_TIME * ticks_per_second <= now - lastTime.
Proof.
  unfold idle_too_long, THREAD_MAX_IDLE_TIME, ticks_per_second.
  rewrite Z.leb_le. set (d := now - lastTime). split.
  - intros H. destruct (Z.lt_ge_cases d (1000000000 * 10)) as [Hlt | Hge]; [| lia].
    exfalso. destruct (Z.lt_ge_cases d 0) as [Hneg | Hpos].
    + pose proof (Z.quot_le_upper_bound d 1000000000 0). lia.
    + pose proof (Z.quot_lt_upper_bound d 1000000000 10). lia.
  - intros H. apply Z.quot_le_lower_bound; lia.
Qed.

(** What a step that erases a registry entry looks like. *)
Lemma erase_step_spec a s s' evs id :
  reachable s -> step a s = Some (s', evs) -> In (EvErase id) evs ->
  exists i w,
    a = AWorker i /\ workers s !! i = Some w /\ w_threadId w = id /\
    taskQueMtx_ s = Some (TWorker i) /\
    ((isPoolRunning_ (pool s) = false /\ taskQue_ (pool s) = [] /\
      (pool s', evs) = exit_on_shutdown id (pool s))
     \/
     (poolMode_ (pool s) = MODE_CACHED /\
      THREAD_MAX_IDLE_TIME * ticks_per_second <= now s - w_lastTime w /\
      initThreadSize_ (pool s) < to_size_t (curThreadSize_ (pool s)) /\
      (pool s', evs) = retire id (pool s))).
Proof.
  intros Hr H Hin.
  destruct (all_inv_reachable _ Hr) as [[HW _ _] _ [HE _ _]].
  destruct (wait_inv_reachable _ Hr) as [_ HC].
  step_cases H.
  all: try (destruct Hin; fail).
  all: pool_specs; subst.
  all: try (apply in_map_iff in Hin as (x & Hx & _); discriminate Hx).
  all: repeat match goal with
         | Hi : In _ (_ :: _) |- _ => destruct Hi as [Hi | Hi]; try discriminate Hi
         | Hi : In _ (_ ++ _) |- _ => apply in_app_or in Hi as [Hi | Hi]
         | Hi : In _ (match ?l with [] => [] | _ :: _ => _ end) |- _ => destruct l
         | Hi : In _ [] |- _ => destruct Hi
         end.
  all: injection Hin as <-.
  all: eexists _, _; split; [reflexivity |]; split; [eassumption |];
       split; [reflexivity |].
  all: (split; [apply (HW _ _ ltac:(eassumption));
                match goal with Hp : w_pc _ = _ |- _ => rewrite Hp end; reflexivity |]).
  - left. split; [apply negb_true_iff; assumption |].
    split; [| rewrite deliver_pool; reflexivity].
    eapply HE; [eassumption |].
    match goal with Hp : w_pc _ = _ |- _ => rewrite Hp end. reflexivity.
  - right.
    match goal with Hb : _ && _ = true |- _ => apply andb_true_iff in Hb as [Hi Hs] end.
    split; [| split; [| split; [| rewrite deliver_pool; reflexivity]]].
    + eapply HC; [eassumption |].
      match goal with Hp : w_pc _ = _ |- _ => rewrite Hp end. reflexivity.
    + apply idle_too_long_spec. exact Hi.
    + unfold surplus in Hs. apply Z.ltb_lt. exact Hs.
Qed.

(** A thread leaves [threadFunc], and the registry, in two ways only, both
    under the mutex.  Either the pool is not running and the queue is
    empty: the thread erases itself and notifies [exitCond_].  Or the pool
    is in cached mode, the thread has been idle for ten seconds or more and
    there are more threads than the initial number: the thread erases
    itself, lowers both counters and notifies nobody. *)
Theorem worker_leaves_by_two_paths a s s' evs id :
  reachable s -> step a s = Some (s', evs) -> In (EvErase id) evs ->
  exists i w,
    a = AWorker i /\ workers s !! i = Some w /\ w_threadId w = id /\
    taskQueMtx_ s = Some (TWorker i) /\
    ((isPoolRunning_ (pool s) = false /\ taskQue_ (pool s) = [] /\
      (pool s', evs) = exit_on_shutdown id (pool s))
     \/
     (poolMode_ (pool s) = MODE_CACHED /\
      THREAD_MAX_IDLE_TIME * ticks_per_second <= now s - w_lastTime w /\
      initThreadSize_ (pool s) < to_size_t (curThreadSize_ (pool s)) /\
      (pool s', evs) = retire id (pool s))).
Proof. apply erase_step_spec. Qed.

Lemma worker_leaves_by_two_paths_witness :
  exists i w,
    AWorker 1 = AWorker i /\
    workers (state_after (removelast stranding_trace) init) !! i = Some w /\
    w_threadId w = 1 /\
    THREAD_MAX_IDLE_TIME * ticks_per_second
    <= now (state_after (removelast stranding_trace) init) - w_lastTime w.
Proof.
  destruct (worker_leaves_by_two_paths (AWorker 1)
              (state_after (removelast stranding_trace) init)
              (state_after stranding_trace init) [EvErase 1] 1)
    as (i & w & Ha & Hw & Hid & _ & [(_ & _ & Hp) | (_ & Hidle & _)]).
  - exists (removelast stranding_trace), (events_of (removelast stranding_trace) init).
    vm_compute. reflexivity.
  - vm_compute. reflexivity.
  - left. reflexivity.
  - apply (f_equal snd) in Hp. discriminate Hp.
  - exists i, w. repeat split; assumption.
Defined.

End ExitInv.

(** ** The thread counters *)

Module CountInv.
Import Cxx Channel Pool Sched Props Runs CxxFacts SchedFacts PoolFacts
  MutexInv PoolInv DrainInv ExecInv ConfigInv.






Lemma create_threads_counts k : forall ths g ths' g',
  create_threads k ths g = Some (ths', g') ->
  g' = g + Z.of_nat k /\ (g <= INT_MAX -> g' <= INT_MAX).
Proof.
  induction k as [| k IH]; intros ths g ths' g' H; cbn [create_threads] in H.
  - injection H as <- <-. split; lia.
  - destruct (Thread_ctor g) as [[ptr g1] |] eqn:E; [| discriminate].
    apply Thread_ctor_spec in E as (-> & -> & Hlt).
    apply IH in H as [-> Hb]. split; [lia |]. intros _. apply Hb. lia.
Qed.












End CountInv.

(** ** The bounds of the counters *)

Module BoundInv.
Import Cxx Channel Pool Sched Props Runs CxxFacts SchedFacts PoolFacts MutexInv PoolInv
  DrainInv ExecInv ConfigInv CountInv.

Lemma start_gen n p g p' g' ids evs :
  start n p g = Some (p', g', ids, evs) ->
  g' = g + n /\ (g <= INT_MAX -> g' <= INT_MAX).
Proof.
  unfold start. destruct ((0 <=? n) && (n <=? INT_MAX)) eqn:Hn; [| discriminate].
  apply andb_true_iff in Hn as [H0 _]. apply Z.leb_le in H0.
  destruct (create_threads _ _ _) as [[ths g1] |] eqn:Ec; [| discriminate].
  destruct (start_threads _ _ _) as [[p2 ids2] |]; [| discriminate].
  intros [= <- <- <- <-]. apply create_threads_counts in Ec as [-> Hb].
  split; [lia | exact Hb].
Qed.

Lemma bound_inv_step a s s' evs :
  pool_inv s -> bound_inv s -> step a s = Some (s', evs) -> bound_inv s'.
Proof.
  intros [HK _ _] [HG HC HI HR] H. step_cases H.
  all: try match goal with
         | Hs : start _ _ _ = Some _ |- _ => pose proof (start_gen _ _ _ _ _ _ _ Hs) as [? ?]
         end.
  all: pool_specs.
  all: constructor; unfold_state; rewrite ?deliver_pool, ?deliver_generatedId; unfold_state.
  all: try assumption.
  all: try setter_cases; try assumption; try congruence.
  all: pool_fields.
  all: try match goal with |- _ = true -> _ => intros Hr end.
  all: repeat match goal with
         | Hk : keys_below _ _ -> _ |- _ => destruct (Hk HK) as [? ?]; clear Hk
         | He : isPoolRunning_ ?t = isPoolRunning_ _, Hr : isPoolRunning_ ?t = true |- _ =>
             rewrite He in Hr
         | Hn : negb (isPoolRunning_ ?p) = true, Hr : isPoolRunning_ ?p = true |- _ =>
             rewrite Hr in Hn; discriminate Hn
         | Hb : _ && surplus _ = true |- _ =>
             apply andb_true_iff in Hb as [_ Hb]; unfold surplus in Hb; apply Z.ltb_lt in Hb
         end.
  all: try discriminate.
  all: try match goal with
         | Hr : isPoolRunning_ (pool _) = true |- _ => specialize (HR Hr)
         end.
  all: rewrite ?to_size_t_small in * by lia.
  all: repeat match goal with
         | He : curThreadSize_ ?t = _ |- context [curThreadSize_ ?t] => rewrite He
         | He : initThreadSize_ ?t = _ |- context [initThreadSize_ ?t] => rewrite He
         | He : threadSizeThreshold_ ?t = _ |- context [threadSizeThreshold_ ?t] => rewrite He
         | He : threads_ ?t = _ |- context [threads_ ?t] => rewrite He
         | He : size (threads_ ?t) = _ |- context [size (threads_ ?t)] => rewrite He
         end.
  all: rewrite ?size_emplace_fresh by assumption.
  all: try match goal with
         | |- context [delete ?k ?m] => pose proof (size_delete_le k m)
         end.
  all: rewrite ?wrap_int_small by (unfold INT_MAX in *; lia).
  all: lia.
Qed.

Lemma bound_inv_reachable s : reachable s -> bound_inv s.
Proof.
  intros Hr. enough (pool_inv s /\ bound_inv s) as [_ H] by exact H.
  revert s Hr. apply reachable_invariant.
  - split; [apply pool_inv_init |]. constructor; cbn; unfold INT_MAX; first [lia | discriminate].
  - intros a s s' evs [Hp Hb] H. split.
    + eapply pool_inv_step; eassumption.
    + eapply bound_inv_step; eassumption.
Qed.

End BoundInv.

(** ** The registry and the ids of the threads *)

Module KeyInv.
Import Cxx Channel Pool Sched Props Runs CxxFacts SchedFacts PoolFacts MutexInv PoolInv
  DrainInv ExecInv ConfigInv CountInv BoundInv.








(** *** Which runs end with an empty registry *)










End KeyInv.

(** ** Tasks, results and their values *)

Module ResultInv.
Import Cxx Channel Pool Sched Props Runs CxxFacts SchedFacts
  PoolFacts MutexInv PoolInv DrainInv Fifo ExecInv ConfigInv.








(** *** Along a run *)










End ResultInv.

(** ** The documented behaviour of the pool *)

Module Claims.
Import Cxx Channel Pool Sched SchedFacts PoolFacts MutexInv PoolInv DrainInv WakeInv Fifo
  ExecInv ConfigInv ExitInv CountInv BoundInv KeyInv Props Runs CxxFacts.

(** *** Shutdown *)

Lemma destroy_entered s s1 e1 :
  step ADestroy s = Some (s1, e1) -> main s = MUser ->
  s1 = with_main DEntered (with_pool (with_running false (pool s)) s).
Proof.
  intros H Hm. unfold step, step_main in H. rewrite Hm in H.
  destruct (terminated s); [discriminate |].
  destruct (forallb call_done (calls s)); [| discriminate].
  congruence.
Qed.





(** *** Submission *)

Lemma Result_ctor_lookup task valid tks rs tk' rs' res :
  Result_ctor task valid tks rs = (tk', rs', res) ->
  rs' !! res = Some (mkResult Any_default (Semaphore_ctor 0) task valid).
Proof.
  unfold Result_ctor. intros [= <- <- <-].
  rewrite lookup_app_r by lia. rewrite Nat.sub_diag. reflexivity.
Qed.

(** C2: a [submitTask] call whose one-second wait has run out and which
    still finds the queue at capacity leaves the queue as it is and
    returns a [Result] that is not valid; [get] on a [Result] that is not
    valid returns an [Any] holding the empty C string at once, without
    touching the semaphore. *)
Theorem submit_overflow_invalid s i c deadline :
  terminated s = false ->
  calls s !! i = Some c ->
  c_pc c = CReady deadline ->
  taskQueMtx_ s = None ->
  deadline <= now s ->
  not_full (pool s) = false ->
  exists s' res r,
    run_all [ACall i; ACall i] s = Some (s', []) /\
    pool s' = pool s /\
    calls s' !! i = Some (mkCall (c_task c) (CDone res)) /\
    results s' !! res = Some r /\
    isValid_ r = false /\
    get r = Returned (Any_of T_cstr EmptyString, r).
Proof.
  intros Hterm Hc Hpc Hmtx Hdl Hfull.
  pose proof (lookup_lt_Some _ _ _ Hc) as Hlen.
  destruct (Result_ctor (c_task c) false (tasks s) (results s)) as [[tk rs] res] eqn:Hres.
  exists (put_call i (set_cpc (CDone res) c)
            (with_heap tk rs (with_mtx None s))),
    res, (mkResult Any_default (Semaphore_ctor 0) (c_task c) false).
  split; [| split; [reflexivity | split; [| split; [| split; reflexivity]]]].
  - cbn [run_all]. unfold step at 1. rewrite Hterm, Hc.
    unfold step_call at 1. rewrite Hpc. unfold mtx_free. rewrite Hmtx.
    unfold step. cbn [terminated with_mtx put_call with_calls calls].
    rewrite Hterm, list_lookup_insert_eq by assumption.
    unfold step_call. cbn [c_pc set_cpc pool with_mtx put_call with_calls c_task
                            tasks results].
    rewrite Hfull. apply Z.leb_le in Hdl. rewrite Hdl, Hres.
    unfold put_call, with_calls, with_heap, with_mtx. cbn.
    rewrite list_insert_insert_eq. reflexivity.
  - cbn. apply list_lookup_insert_eq. assumption.
  - cbn. eapply Result_ctor_lookup. exact Hres.
Qed.

Lemma submit_overflow_invalid_witness :
  exists s' res r,
    run_all [ACall 1%nat; ACall 1%nat] (state_after overflow_trace init) = Some (s', []) /\
    pool s' = pool (state_after overflow_trace init) /\
    calls s' !! 1%nat = Some (mkCall 1%nat (CDone res)) /\
    results s' !! res = Some r /\
    isValid_ r = false /\
    get r = Returned (Any_of T_cstr EmptyString, r).
Proof.
  apply (submit_overflow_invalid (state_after overflow_trace init) 1%nat
           (mkCall 1%nat (CReady ticks_per_second)) ticks_per_second).
  - vm_compute. reflexivity.
  - vm_compute. reflexivity.
  - reflexivity.
  - vm_compute. reflexivity.
  - vm_compute. discriminate.
  - vm_compute. reflexivity.
Defined.

(** C10 (as the code has it): [submitTask] does not look at
    [isPoolRunning_].  On a pool that is not running, a call that finds
    room in the queue appends its task and returns a valid [Result].  In
    fixed mode the call starts no thread; in cached mode the call starts
    one exactly when there are more tasks than idle workers and fewer
    workers than the threshold, as it does on a running pool. *)
Theorem submit_ignores_running s i c deadline timeout :
  terminated s = false ->
  calls s !! i = Some c ->
  c_pc c = CLocked deadline timeout ->
  isPoolRunning_ (pool s) = false ->
  not_full (pool s) = true ->
  generatedId_ s < INT_MAX ->
  exists s' evs res r,
    step (ACall i) s = Some (s', evs) /\
    taskQue_ (pool s') = taskQue_ (pool s) ++ [c_task c] /\
    isPoolRunning_ (pool s') = false /\
    calls s' !! i = Some (mkCall (c_task c) (CDone res)) /\
    results s' !! res = Some r /\
    isValid_ r = true /\
    (poolMode_ (pool s) = MODE_FIXED ->
     length (workers s') = length (workers s) /\
     forall id, ~ In (EvStartThread id) evs) /\
    (poolMode_ (pool s) = MODE_CACHED ->
     to_uint (idleThreadSize_ (pool s)) < to_uint (taskSize_ (pool s) + 1) ->
     to_size_t (curThreadSize_ (pool s)) < threadSizeThreshold_ (pool s) ->
     length (workers s') = S (length (workers s)) /\
     exists id, In (EvStartThread id) evs) /\
    (poolMode_ (pool s) = MODE_CACHED ->
     ~ (to_uint (idleThreadSize_ (pool s)) < to_uint (taskSize_ (pool s) + 1) /\
        to_size_t (curThreadSize_ (pool s)) < threadSizeThreshold_ (pool s)) ->
     length (workers s') = length (workers s) /\
     forall id, ~ In (EvStartThread id) evs).
Proof.
  intros Hterm Hc Hpc Hrun Hroom Hg.
  pose proof (lookup_lt_Some _ _ _ Hc) as Hlen.
  destruct (Result_ctor (c_task c) true (tasks s) (results s)) as [[tk rs] res] eqn:Hres.
  assert (exists p g ids evs,
             submit_accept (c_task c) (pool s) (generatedId_ s) = Some (p, g, ids, evs))
    as (p & g & ids & evs & Hacc).
  { unfold submit_accept. destruct (needs_new_thread _); [| eauto].
    unfold Thread_ctor. apply Z.ltb_lt in Hg. rewrite Hg. cbn [threadId_].
    cbn [threads_ with_threads].
    destruct (emplace_lookup (generatedId_ s) (mkThread (generatedId_ s))
                (threads_ (with_taskSize (to_uint (taskSize_ (pool s) + 1))
                   (with_que (taskQue_ (pool s) ++ [c_task c]) (pool s)))))
      as [th Hth].
    rewrite Hth. eauto. }
  pose proof (submit_accept_spec _ _ _ _ _ _ _ Hacc) as (Hq & Hr & _ & _ & _ & Hcases).
  assert (step (ACall i) s
          = Some (deliver evs
                    (spawn ids
                       (put_call i (set_cpc (CDone res) c)
                          (with_heap tk rs
                             (with_generatedId g (with_pool p (with_mtx None s)))))),
                  evs)) as Hstep.
  { unfold step. rewrite Hterm, Hc. unfold step_call. rewrite Hpc, Hroom, Hacc, Hres.
    reflexivity. }
  eexists _, evs, res, _.
  split; [exact Hstep |].
  split; [rewrite deliver_pool; cbn; exact Hq |].
  split; [rewrite deliver_pool; cbn; congruence |].
  split; [apply deliver_calls_done; [| reflexivity];
          cbn; apply list_lookup_insert_eq; assumption |].
  split; [rewrite (proj2 (deliver_heap _ _)); cbn; eapply Result_ctor_lookup; exact Hres |].
  split; [reflexivity |].
  rewrite deliver_workers_length. unfold_state. rewrite length_app, length_map.
  clear Hstep Hcases. unfold submit_accept in Hacc.
  destruct (needs_new_thread _) eqn:Hn.
  - destruct (Thread_ctor _) as [[ptr g1] |]; [| discriminate Hacc].
    match type of Hacc with
    | match ?x with Some _ => _ | None => _ end = _ => destruct x as [th |]; [| discriminate Hacc]
    end.
    injection Hacc as <- <- <- <-.
    unfold needs_new_thread in Hn. cbn in Hn.
    destruct (poolMode_ (pool s)); [discriminate Hn |].
    apply andb_true_iff in Hn as [H1 H2]. apply Z.ltb_lt in H1, H2.
    split; [intros Hfixed; discriminate Hfixed |].
    split.
    + intros _ _ _. split; [cbn; lia |].
      exists (threadId_ th). right. right. left. reflexivity.
    + intros _ Hnot. exfalso. apply Hnot. split; assumption.
  - injection Hacc as <- <- <- <-.
    assert (forall id, ~ In (EvStartThread id) [EvEnqueue (c_task c); EvNotifyAll notEmpty_])
      as Hnone.
    { intros id Hin. repeat (destruct Hin as [Hin | Hin]; try discriminate Hin).
      destruct Hin. }
    split; [intros _; split; [cbn; lia | exact Hnone] |].
    split; [| intros _ _; split; [cbn; lia | exact Hnone]].
    intros Hcached Hidle Hcur. exfalso.
    unfold needs_new_thread in Hn. cbn in Hn. rewrite Hcached in Hn.
    apply andb_false_iff in Hn as [Hn | Hn]; apply Z.ltb_ge in Hn; lia.
Qed.

Lemma submit_ignores_running_witness :
  exists s' evs,
    step (ACall 0%nat) (state_after [ASetMode MODE_CACHED; ASubmit returns7; ACall 0%nat] init)
    = Some (s', evs) /\
    taskQue_ (pool s') = [0%nat] /\
    isPoolRunning_ (pool s') = false /\
    length (workers s') = 1%nat /\
    exists id, In (EvStartThread id) evs.
Proof.
  destruct (submit_ignores_running
              (state_after [ASetMode MODE_CACHED; ASubmit returns7; ACall 0%nat] init)
              0%nat (mkCall 0%nat (CLocked ticks_per_second false)) ticks_per_second false)
    as (s' & evs & res & r & Hstep & Hq & Hrun & _ & _ & _ & _ & Hcached & _).
  - reflexivity.
  - reflexivity.
  - reflexivity.
  - reflexivity.
  - vm_compute. reflexivity.
  - vm_compute. reflexivity.
  - exists s', evs. split; [exact Hstep |]. split; [exact Hq |]. split; [exact Hrun |].
    apply Hcached; vm_compute; reflexivity.
Defined.

(** C10 (counterexample): on a pool in cached mode that was never started,
    the call that queues the task starts a thread, and this thread runs the
    task and publishes its value. *)
Lemma submit_starts_worker :
  exists s evs,
    run_all cached_unstarted_trace init = Some (s, evs) /\
    isPoolRunning_ (pool s) = false /\
    main s = MUser /\
    In (EvStartThread 0) evs /\
    executed evs = [0%nat] /\
    results s = [mkResult (Any_of T_int 7) (mkSemaphore 1) 0%nat true].
Proof.
  eexists _, _. split; [vm_compute; reflexivity |].
  split; [reflexivity |]. split; [reflexivity |].
  split; [right; right; left; reflexivity |]. split; reflexivity.
Qed.

(** *** Execution of a task *)

(** C5 (as the code has it): nothing around [run()] handles what it
    throws.  A task whose [run()] returns has its value stored and its
    semaphore released, and the worker goes on; a task whose [run()]
    throws publishes nothing and the process is terminated. *)
Theorem exec_has_no_handler s i w task t res :
  terminated s = false ->
  workers s !! i = Some w ->
  w_pc w = WExec task ->
  tasks s !! task = Some t ->
  result_ t = Some res ->
  match Channel.run t with
  | Returns v =>
      step (AWorker i) s =
      Some (put_worker i (set_wpc WAfterExec w)
              (with_heap (tasks s) (alter (setVal v) res (results s)) s),
            [EvExec task])
  | Raises _ =>
      step (AWorker i) s = Some (with_terminated true s, []) /\
      forall a, step a (with_terminated true s) = None
  end.
Proof.
  intros Hterm Hw Hpc Ht Hres.
  unfold step. rewrite Hterm, Hw. unfold step_worker. rewrite Hpc, Ht.
  unfold exec. rewrite Hres.
  destruct (Channel.run t) as [v | what]; [reflexivity |].
  split; [reflexivity |]. intros a. apply step_terminated. reflexivity.
Qed.

Lemma exec_has_no_handler_witness :
  step (AWorker 0) (state_after throwing_trace init)
  = Some (with_terminated true (state_after throwing_trace init), []) /\
  forall a, step a (with_terminated true (state_after throwing_trace init)) = None.
Proof.
  apply (exec_has_no_handler (state_after throwing_trace init) 0%nat
           (mkWorker 0 0 (WExec 0%nat)) 0%nat (mkTask throws (Some 0%nat)) 0%nat).
  - reflexivity.
  - vm_compute. reflexivity.
  - reflexivity.
  - vm_compute. reflexivity.
  - reflexivity.
Defined.

(** C5 (counterexample): the worker that runs a throwing task does not
    survive and no value reaches the task's [Result]: the semaphore stays
    at zero and no thread can take a further step. *)
Lemma throwing_task_ends_process :
  exists s evs,
    run_all (throwing_trace ++ [AWorker 0]) init = Some (s, evs) /\
    terminated s = true /\
    (w_pc <$> workers s) = [WExec 0%nat] /\
    results s = [mkResult Any_default (Semaphore_ctor 0) 0%nat true] /\
    forall a, step a s = None.
Proof.
  eexists _, _. split; [vm_compute; reflexivity |].
  split; [reflexivity |]. split; [reflexivity |]. split; [reflexivity |].
  intros a. apply step_terminated. reflexivity.
Qed.

(** *** The result channel *)

(** C6 (as the code has it): after [setVal], the first [get] on a valid
    [Result] returns the stored value without blocking; it takes the one
    resource of the semaphore and moves the value out, so that a second
    [get] blocks. *)
Theorem get_once_after_setVal (r : Result) (v : Any) :
  isValid_ r = true ->
  resLimit_ (sem_ r) = 0 ->
  exists r1,
    get (setVal v r) = Returned (v, r1) /\
    any_ r1 = Any_default /\
    resLimit_ (sem_ r1) = 0 /\
    get r1 = Blocked.
Proof.
  intros Hv Hs. destruct r as [a [n] t valid]. simpl in *. subst.
  eexists. split; [reflexivity |]. repeat split.
Qed.

Lemma get_once_after_setVal_witness :
  exists r1,
    get (setVal (Any_of T_int 7) fresh_result) = Returned (Any_of T_int 7, r1) /\
    any_ r1 = Any_default /\
    resLimit_ (sem_ r1) = 0 /\
    get r1 = Blocked.
Proof.
  apply (get_once_after_setVal fresh_result (Any_of T_int 7)); reflexivity.
Defined.

(** C6 (counterexample): the second [get] after the one [setVal] does not
    return. *)
Lemma second_get_blocks :
  exists r1,
    get (setVal (Any_of T_int 7) fresh_result) = Returned (Any_of T_int 7, r1) /\
    get r1 = Blocked.
Proof. eexists. split; reflexivity. Qed.

(** *** The [Any] container *)

(** C9: a value stored as a [T] is read back unchanged as a [T], and
    reading it as any other type throws. *)
Theorem cast_identity_or_mismatch {Ty : Type} `{EqDecision Ty} (den : Ty -> Type)
    (T : Ty) (v : den T) :
  AnyModel.cast_ den T (AnyModel.Any_of den T v) = Ret v /\
  forall U, U <> T ->
    AnyModel.cast_ den U (AnyModel.Any_of den T v) = Throw "type is unmatch!".
Proof.
  split; [apply AnyFacts.cast_same |].
  intros U Hne. apply AnyFacts.cast_other. congruence.
Qed.

Lemma cast_identity_or_mismatch_witness :
  cast_ T_uLong (Any_of T_uLong 5050) = Ret (5050 : cxx_den T_uLong) /\
  cast_ T_string (Any_of T_uLong 5050) = Throw "type is unmatch!".
Proof.
  destruct (cast_identity_or_mismatch cxx_den T_uLong 5050) as [Hsame Hother].
  split; [exact Hsame | apply Hother; discriminate].
Defined.

(** *** The queue *)

Lemma dequeue_is_take_task a s s' evs :
  step a s = Some (s', evs) -> dequeued evs <> [] ->
  exists task, take_task (pool s) = Some (task, pool s', evs).
Proof.
  intros H Hne. step_cases H.
  all: try (exfalso; apply Hne; reflexivity).
  all: try match goal with
         | Ht : take_task _ = Some _ |- _ =>
             rewrite deliver_pool; unfold_state; eexists; reflexivity
         end.
  all: pool_specs; subst; exfalso; apply Hne;
       rewrite ?dequeued_started; reflexivity.
Qed.

(** C3: what a worker does when it takes a task, and the order in which
    tasks leave the queue.  Along every run the tasks taken so far,
    followed by the queue, are the tasks accepted so far; hence the i-th
    task taken is the i-th task accepted.  Every step that takes a task is
    [take_task]: it takes the front of the queue, decrements the idle
    count and the size, broadcasts [notEmpty_] if tasks remain and
    broadcasts [notFull_]. *)
Theorem dequeue_order_is_acceptance_order acts s evs :
  run_all acts init = Some (s, evs) ->
  accepted evs = dequeued evs ++ taskQue_ (pool s) /\
  (forall i t, dequeued evs !! i = Some t -> accepted evs !! i = Some t) /\
  (forall a s1 s2 e,
      step a s1 = Some (s2, e) -> dequeued e <> [] ->
      exists task, take_task (pool s1) = Some (task, pool s2, e)) /\
  (forall p task p' e,
      take_task p = Some (task, p', e) ->
      exists rest,
        taskQue_ p = task :: rest /\
        taskQue_ p' = rest /\
        idleThreadSize_ p' = wrap_int (idleThreadSize_ p - 1) /\
        taskSize_ p' = to_uint (taskSize_ p - 1) /\
        e = EvDequeue task
            :: (match rest with [] => [] | _ :: _ => [EvNotifyAll notEmpty_] end)
            ++ [EvNotifyAll notFull_]).
Proof.
  intros Hrun. pose proof (fifo_run _ _ _ _ Hrun) as Hfifo. simpl in Hfifo.
  split; [exact Hfifo |]. split; [| split].
  - intros i t Hi. rewrite Hfifo. apply lookup_app_l_Some. exact Hi.
  - intros a s1 s2 e. apply dequeue_is_take_task.
  - intros p task p' e Ht. unfold take_task in Ht.
    destruct (taskQue_ p) as [| t rest] eqn:E; [discriminate |].
    injection Ht as <- <- <-. exists rest. repeat split.
Qed.

Lemma dequeue_order_is_acceptance_order_witness :
  accepted (events_of fifo_trace init) = [0%nat; 1%nat] ++ [2%nat] /\
  accepted (events_of fifo_trace init) !! 1%nat = Some 1%nat.
Proof.
  destruct (dequeue_order_is_acceptance_order fifo_trace
              (state_after fifo_trace init) (events_of fifo_trace init))
    as (Hall & Hnth & _).
  - vm_compute. reflexivity.
  - split; [exact Hall |]. apply Hnth. vm_compute. reflexivity.
Defined.

(** *** The number of workers *)

(** What a step that starts a thread looks like. *)
Lemma spawn_step_spec a s s' evs id :
  step a s = Some (s', evs) -> In (EvStartThread id) evs ->
  (exists n, a = AStart n) \/
  (exists i c,
      a = ACall i /\ calls s !! i = Some c /\
      needs_new_thread
        (with_taskSize (to_uint (taskSize_ (pool s) + 1))
           (with_que (taskQue_ (pool s) ++ [c_task c]) (pool s))) = true /\
      generatedId_ s < INT_MAX /\
      taskSize_ (pool s') = to_uint (taskSize_ (pool s) + 1) /\
      curThreadSize_ (pool s') = wrap_int (curThreadSize_ (pool s) + 1) /\
      idleThreadSize_ (pool s') = wrap_int (idleThreadSize_ (pool s) + 1)).
Proof.
  intros H Hin. step_cases H.
  all: try (destruct Hin; fail).
  all: try (left; eexists; reflexivity).
  all: try match goal with
         | Hs : submit_accept _ _ _ = Some _ |- _ =>
             right; unfold submit_accept in Hs;
             destruct (needs_new_thread _) eqn:Hn;
             [ destruct (Thread_ctor _) as [[ptr g1] |] eqn:Ec; [| discriminate Hs];
               apply Thread_ctor_spec in Ec as (-> & -> & Hlt);
               match type of Hs with
               | match ?x with Some _ => _ | None => _ end = _ =>
                   destruct x; [| discriminate Hs]
               end;
               injection Hs as <- <- <- <-;
               eexists _, _; split; [reflexivity |]; split; [eassumption |];
               split; [exact Hn |]; split; [exact Hlt |];
               rewrite deliver_pool; repeat split
             | injection Hs as <- <- <- <-;
               repeat (destruct Hin as [Hin | Hin]; try discriminate Hin) ]
         end.
  all: pool_specs; subst.
  all: repeat match goal with
         | Hi : In _ (_ :: _) |- _ => destruct Hi as [Hi | Hi]; try discriminate Hi
         | Hi : In _ (_ ++ _) |- _ => apply in_app_or in Hi as [Hi | Hi]
         | Hi : In _ (match ?l with [] => [] | _ :: _ => _ end) |- _ => destruct l
         | Hi : In _ [] |- _ => destruct Hi
         end.
Qed.

(** C4 (as the code has it): while the pool is running, the number of
    workers never falls below the initial number and never exceeds the
    larger of the initial number and the threshold; [start] does not
    compare its argument with the threshold.  Apart from [start], a thread
    is started only by a [submitTask] call, in cached mode, with more
    tasks than idle workers and fewer workers than the threshold, and the
    call raises the number by one.  A thread is erased from a running pool
    only in cached mode and above the initial number, which lowers the
    number by one. *)
Theorem worker_count_bounds s :
  reachable s ->
  isPoolRunning_ (pool s) = true ->
  initThreadSize_ (pool s) <= curThreadSize_ (pool s) /\
  curThreadSize_ (pool s)
  <= Z.max (initThreadSize_ (pool s)) (threadSizeThreshold_ (pool s)) /\
  (forall a s' evs id,
      step a s = Some (s', evs) -> In (EvStartThread id) evs ->
      (exists n, a = AStart n) \/
      (exists i,
          a = ACall i /\
          poolMode_ (pool s) = MODE_CACHED /\
          to_uint (idleThreadSize_ (pool s)) < taskSize_ (pool s') /\
          curThreadSize_ (pool s) < threadSizeThreshold_ (pool s) /\
          curThreadSize_ (pool s') = curThreadSize_ (pool s) + 1)) /\
  (forall a s' evs id,
      step a s = Some (s', evs) -> In (EvErase id) evs ->
      poolMode_ (pool s) = MODE_CACHED /\
      initThreadSize_ (pool s) < curThreadSize_ (pool s) /\
      curThreadSize_ (pool s') = curThreadSize_ (pool s) - 1).
Proof.
  intros Hr Hrun.
  destruct (bound_inv_reachable _ Hr) as [Hg Hc Hi Hb].
  destruct (Hb Hrun) as (Hlow & Hhigh & _).
  assert (to_size_t (curThreadSize_ (pool s)) = curThreadSize_ (pool s)) as Hcur
    by (apply to_size_t_small; lia).
  split; [exact Hlow |]. split; [exact Hhigh |]. split.
  - intros a s' evs id H Hin.
    destruct (spawn_step_spec _ _ _ _ _ H Hin)
      as [Hs | (i & c & -> & _ & Hn & Hlt & Hts & Hcs & _)]; [left; exact Hs | right].
    exists i. split; [reflexivity |].
    unfold needs_new_thread in Hn. cbn in Hn.
    destruct (poolMode_ (pool s)); [discriminate |].
    apply andb_true_iff in Hn as [H1 H2]. apply Z.ltb_lt in H1, H2.
    rewrite Hcur in H2. rewrite Hts, Hcs.
    rewrite wrap_int_small by (unfold INT_MAX in *; lia). auto.
  - intros a s' evs id H Hin.
    destruct (erase_step_spec _ _ _ _ _ Hr H Hin)
      as (i & w & _ & _ & _ & _ & [(Hf & _) | (Hm & _ & Hs & Hp)]); [congruence |].
    rewrite Hcur in Hs. unfold retire in Hp. injection Hp as -> _. cbn.
    rewrite wrap_int_small by (unfold INT_MAX in *; lia). auto.
Qed.

Lemma worker_count_bounds_witness :
  initThreadSize_ (pool (state_after growth_trace init))
  <= curThreadSize_ (pool (state_after growth_trace init)) /\
  curThreadSize_ (pool (state_after growth_trace init)) <= 100.
Proof.
  destruct (worker_count_bounds (state_after growth_trace init))
    as (Hlow & Hhigh & _).
  - exists growth_trace, (events_of growth_trace init). vm_compute. reflexivity.
  - vm_compute. reflexivity.
  - split; [exact Hlow | exact Hhigh].
Defined.

(** C4 (counterexample): a cached pool with a threshold of one is started
    with two workers. *)
Lemma start_exceeds_threshold :
  exists s evs,
    run_all [ASetMode MODE_CACHED; ASetThreadSizeThreshold 1; AStart 2] init
    = Some (s, evs) /\
    poolMode_ (pool s) = MODE_CACHED /\
    isPoolRunning_ (pool s) = true /\
    threadSizeThreshold_ (pool s) = 1 /\
    curThreadSize_ (pool s) = 2.
Proof. eexists _, _. split; [vm_compute; reflexivity |]. repeat split. Qed.

(** *** The wake-up at shutdown *)

(** C7 (as the code has it): the destructor writes the flag first, without
    touching the mutex; it then takes the mutex and broadcasts while it
    holds it.  A worker that has read the flag as true and waits, or is
    about to wait, is found only while the broadcast is still to come. *)
Theorem shutdown_wakes_workers s :
  reachable s ->
  (main s = MUser ->
   forall s' e, step ADestroy s = Some (s', e) ->
                isPoolRunning_ (pool s') = false /\
                taskQueMtx_ s' = taskQueMtx_ s /\
                main s' = DEntered) /\
  (main s = DLocked ->
   isPoolRunning_ (pool s) = false /\
   taskQueMtx_ s = Some TMain /\
   (terminated s = false ->
    step ADestroy s
    = Some (with_main DNotified (notify_all notEmpty_ s), [EvNotifyAll notEmpty_]))) /\
  (isPoolRunning_ (pool s) = false ->
   forall i w, workers s !! i = Some w -> commits_to_wait (w_pc w) = true ->
               broadcast_pending (main s) = true).
Proof.
  intros Hr. split; [| split; [| apply no_lost_wakeup_reachable; exact Hr]].
  - intros Hm s' e Hd. rewrite (destroy_entered _ _ _ Hd Hm). repeat split.
  - intros Hm. destruct (all_inv_reachable _ Hr) as [[_ _ Hmx] [_ Hrun _] _].
    split; [| split].
    + destruct (isPoolRunning_ (pool s)); [| reflexivity].
      specialize (Hrun eq_refl). congruence.
    + apply Hmx. rewrite Hm. reflexivity.
    + intros Ht. unfold step, step_main. rewrite Ht, Hm. reflexivity.
Qed.

Lemma shutdown_wakes_workers_witness :
  taskQueMtx_ (state_after waiting_trace init) = Some TMain /\
  (w_pc <$> workers (state_after waiting_trace init)) = [WBlocked None] /\
  broadcast_pending (main (state_after waiting_trace init)) = true.
Proof.
  destruct (shutdown_wakes_workers (state_after waiting_trace init))
    as (_ & Hlocked & Hpending).
  - exists waiting_trace, (events_of waiting_trace init). vm_compute. reflexivity.
  - split; [apply Hlocked; reflexivity |]. split; [reflexivity |].
    apply (Hpending eq_refl 0%nat (mkWorker 0 0 (WBlocked None))); reflexivity.
Defined.

(** C7 (counterexample): the flag is written while a worker owns the
    mutex. *)
Lemma flag_written_without_mutex :
  exists s s' evs,
    reachable s /\
    step ADestroy s = Some (s', evs) /\
    isPoolRunning_ (pool s) = true /\
    isPoolRunning_ (pool s') = false /\
    taskQueMtx_ s = Some (TWorker 0) /\
    taskQueMtx_ s' = Some (TWorker 0).
Proof.
  exists (state_after [AStart 1; AWorker 0; AWorker 0] init).
  eexists _, _. split.
  { exists [AStart 1; AWorker 0; AWorker 0],
      (events_of [AStart 1; AWorker 0; AWorker 0] init). vm_compute. reflexivity. }
  split; [vm_compute; reflexivity |]. repeat split.
Qed.

(** *** Leaving the registry *)

Lemma stranded_step a s s' evs :
  stranded s = true -> a <> AMainWake ->
  step a s = Some (s', evs) -> stranded s' = true.
Proof.
  unfold stranded. intros Hs Ha H.
  apply andb_true_iff in Hs as [Hs Hc]. apply andb_true_iff in Hs as [Hm Hw].
  rewrite forallb_forall in Hw, Hc.
  destruct (main s) eqn:Hmain; try discriminate.
  step_cases H; try congruence.
  all: try match goal with
         | Hl : workers _ !! _ = Some ?w, Hp : w_pc ?w = _ |- _ =>
             exfalso; apply list_elem_of_lookup_2, list_elem_of_In, Hw in Hl;
             unfold worker_exited in Hl; rewrite Hp in Hl; discriminate
         | Hl : calls _ !! _ = Some ?c, Hp : c_pc ?c = _ |- _ =>
             exfalso; apply list_elem_of_lookup_2, list_elem_of_In, Hc in Hl;
             unfold call_done in Hl; rewrite Hp in Hl; discriminate
         end.
  cbn. rewrite Hmain. apply andb_true_iff. split; [apply andb_true_iff; split |].
  - reflexivity.
  - apply forallb_forall. exact Hw.
  - apply forallb_forall. exact Hc.
Qed.

Lemma stranded_run acts : forall s s' evs,
  stranded s = true -> ~ In AMainWake acts ->
  run_all acts s = Some (s', evs) -> stranded s' = true.
Proof.
  induction acts as [| a acts IH]; intros s s' evs Hs Hn Hrun; simpl in Hrun.
  - injection Hrun as <- _. exact Hs.
  - destruct (step a s) as [[s1 e1] |] eqn:E; [| discriminate].
    destruct (run_all acts s1) as [[s2 e2] |] eqn:E2; [| discriminate].
    injection Hrun as <- _.
    eapply IH; [| | exact E2].
    + eapply stranded_step; [exact Hs | | exact E]. intros ->. apply Hn. left. reflexivity.
    + intros Hin. apply Hn. right. exact Hin.
Qed.

(** C8 (the defect): the idle retirement erases the worker from the
    registry and notifies nobody, whereas the shutdown exit notifies
    [exitCond_].  In the run above the last erasure is followed by no
    notification: the registry is empty and the destructor still waits, and
    apart from a spurious wake-up nothing ends its wait. *)
Theorem idle_retire_strands_destructor :
  (forall threadId p, snd (retire threadId p) = [EvErase threadId]) /\
  (forall threadId p,
      snd (exit_on_shutdown threadId p) = [EvErase threadId; EvNotifyAll exitCond_]) /\
  exists s evs,
    run_all stranding_trace init = Some (s, evs) /\
    (exists before, evs = before ++ [EvErase 0; EvNotifyAll exitCond_; EvErase 1]) /\
    main s = DBlocked /\
    registry_empty (pool s) = true /\
    taskQueMtx_ s = None /\
    forall acts s' evs',
      ~ In AMainWake acts -> run_all acts s = Some (s', evs') ->
      main s' = DBlocked.
Proof.
  split; [reflexivity |]. split; [reflexivity |].
  eexists _, _. split; [vm_compute; reflexivity |].
  split; [eexists; rewrite <- (firstn_skipn 14) at 1; reflexivity |].
  split; [reflexivity |]. split; [reflexivity |]. split; [reflexivity |].
  intros acts s' evs' Hn Hrun.
  assert (stranded s' = true) as Hs.
  { eapply stranded_run; [| exact Hn | exact Hrun]. reflexivity. }
  unfold stranded in Hs. destruct (main s'); try discriminate. reflexivity.
Qed.

Lemma idle_retire_strands_destructor_witness :
  exists s evs,
    run_all stranding_trace init = Some (s, evs) /\
    registry_empty (pool s) = true /\
    forall s' evs', run_all [ATick 1; ATick ticks_per_second] s = Some (s', evs') ->
                    main s' = DBlocked.
Proof.
  destruct idle_retire_strands_destructor
    as (_ & _ & s & evs & Hrun & _ & _ & Hreg & _ & Hall).
  exists s, evs. split; [exact Hrun |]. split; [exact Hreg |].
  intros s' evs' H. eapply Hall; [| exact H].
  intros Hin. destruct Hin as [E | Hin]; [discriminate E |].
  destruct Hin as [E | Hin]; [discriminate E | destruct Hin].
Defined.


End Claims.
